(** * The image and volume cache of cornerstone-core (cache/cache.ts)

    A shallow embedding of the [Cache] class and the statements of its
    specification that can be settled on it.

    Conventions of the embedding.
    - JavaScript numbers that hold byte counts and time stamps are integers
      ([Z]); nothing here leaves the range in which doubles are exact.
    - The two [Map]s keep their insertion order, as JavaScript's do: they are
      association lists with one pair per key.  A value of a [Map] is an
      object, so the lists hold references (indices into a heap of entry
      objects).  The callbacks that [putImageLoadObject] and
      [putVolumeLoadObject] register close over the entry object they created,
      not over whatever the collection holds under the id later.
    - Every method is a computation [M A]: it takes the world, returns how the
      call completed (normally, or with an exception) and the world it leaves.
      What was written before a [throw] stays written.
    - [triggerEvent], [console.warn] and the [cancel] and [decache] hooks of a
      load object belong to other modules; calling them appends to a trace.
      The hooks are taken to return normally and not to call back into the
      cache. *)

From Stdlib Require Import ZArith String List Bool Lia.
From stdpp Require Import base list strings.
Import ListNotations.

Local Open Scope string_scope.
Local Open Scope list_scope.
Local Open Scope Z_scope.

(** ** Values handed in by loaders *)

(** The values of [sizeInBytes] the completion callbacks tell apart:
    [=== undefined], a value whose property read throws ([null]), a value
    without a [toFixed] method (a string), and a number. *)
Inductive JsVal :=
| JsUndefined
| JsNull
| JsNumber (n : Z)
| JsString (s : string).

(** [imageLoadObject.cancelFn]: falsy, a function, or something else. *)
Inductive CancelFn := CancelFnFalsy | CancelFnFunction | CancelFnOther.

(** [interface ImageLoadObject] and [interface VolumeLoadObject] have the same
    members.  [promise] is [None] when the member is [undefined], else the
    identity of the promise; [cancel] and [decache] say whether the optional
    hook is there. *)
Record LoadObject := {
  promise : option nat;
  cancel : bool;
  decache : bool;
  cancelFn : CancelFn }.

Definition ImageLoadObject := LoadObject.
Definition VolumeLoadObject := LoadObject.

Module Image.
Record t := { sizeInBytes : JsVal; sharedCacheKey : option string }.
End Image.

Module Volume.
Record t := { sizeInBytes : JsVal }.
End Volume.

(** ** Cache entries *)

Module CachedImage.
Record t := {
  image : option Image.t;
  imageId : string;
  imageLoadObject : ImageLoadObject;
  loaded : bool;
  sharedCacheKey : option string;
  timeStamp : Z;
  sizeInBytes : Z }.

Definition set_image (v : option Image.t) (e : t) : t :=
  {| image := v; imageId := imageId e; imageLoadObject := imageLoadObject e;
     loaded := loaded e; sharedCacheKey := sharedCacheKey e;
     timeStamp := timeStamp e; sizeInBytes := sizeInBytes e |}.
Definition set_loaded (v : bool) (e : t) : t :=
  {| image := image e; imageId := imageId e; imageLoadObject := imageLoadObject e;
     loaded := v; sharedCacheKey := sharedCacheKey e;
     timeStamp := timeStamp e; sizeInBytes := sizeInBytes e |}.
Definition set_sharedCacheKey (v : option string) (e : t) : t :=
  {| image := image e; imageId := imageId e; imageLoadObject := imageLoadObject e;
     loaded := loaded e; sharedCacheKey := v;
     timeStamp := timeStamp e; sizeInBytes := sizeInBytes e |}.
Definition set_timeStamp (v : Z) (e : t) : t :=
  {| image := image e; imageId := imageId e; imageLoadObject := imageLoadObject e;
     loaded := loaded e; sharedCacheKey := sharedCacheKey e;
     timeStamp := v; sizeInBytes := sizeInBytes e |}.
Definition set_sizeInBytes (v : Z) (e : t) : t :=
  {| image := image e; imageId := imageId e; imageLoadObject := imageLoadObject e;
     loaded := loaded e; sharedCacheKey := sharedCacheKey e;
     timeStamp := timeStamp e; sizeInBytes := v |}.
End CachedImage.

Module CachedVolume.
Record t := {
  volume : option Volume.t;
  volumeId : string;
  volumeLoadObject : VolumeLoadObject;
  loaded : bool;
  timeStamp : Z;
  sizeInBytes : Z }.

Definition set_volume (v : option Volume.t) (e : t) : t :=
  {| volume := v; volumeId := volumeId e; volumeLoadObject := volumeLoadObject e;
     loaded := loaded e; timeStamp := timeStamp e; sizeInBytes := sizeInBytes e |}.
Definition set_loaded (v : bool) (e : t) : t :=
  {| volume := volume e; volumeId := volumeId e; volumeLoadObject := volumeLoadObject e;
     loaded := v; timeStamp := timeStamp e; sizeInBytes := sizeInBytes e |}.
Definition set_timeStamp (v : Z) (e : t) : t :=
  {| volume := volume e; volumeId := volumeId e; volumeLoadObject := volumeLoadObject e;
     loaded := loaded e; timeStamp := v; sizeInBytes := sizeInBytes e |}.
Definition set_sizeInBytes (v : Z) (e : t) : t :=
  {| volume := volume e; volumeId := volumeId e; volumeLoadObject := volumeLoadObject e;
     loaded := loaded e; timeStamp := timeStamp e; sizeInBytes := v |}.
End CachedVolume.

(** ** JavaScript [Map] from ids to entry objects *)

Definition JsMap := list (string * nat).

Fixpoint Map_get (m : JsMap) (k : string) : option nat :=
  match m with
  | [] => None
  | (k', r) :: m' => if String.eqb k' k then Some r else Map_get m' k
  end.

(** [set] on a present key replaces the value where the key stands; a new key
    goes to the end. *)
Fixpoint Map_set (m : JsMap) (k : string) (r : nat) : JsMap :=
  match m with
  | [] => [(k, r)]
  | (k', r') :: m' =>
      if String.eqb k' k then (k, r) :: m' else (k', r') :: Map_set m' k r
  end.

Fixpoint Map_delete (m : JsMap) (k : string) : JsMap :=
  match m with
  | [] => []
  | (k', r') :: m' =>
      if String.eqb k' k then Map_delete m' k else (k', r') :: Map_delete m' k
  end.

Definition Map_keys (m : JsMap) : list string := map fst m.
Definition Map_values (m : JsMap) : list nat := map snd m.

(** [Object.prototype.hasOwnProperty.call(map, id)]: the entries of a [Map]
    are not properties of the [Map] object, and the class never assigns a
    property on its two maps, so the answer is [false] whatever they hold. *)
Definition Map_hasOwnProperty (m : JsMap) (k : string) : bool := false.

(** ** The world a call runs in *)

Inductive EventName :=
| IMAGE_CACHE_IMAGE_ADDED
| IMAGE_CACHE_IMAGE_REMOVED
| IMAGE_CACHE_VOLUME_ADDED
| IMAGE_CACHE_VOLUME_REMOVED.

(** The detail object of an event: [{ image: cachedImage }],
    [{ volume: cachedVolume }] (the entry object itself) or [{ imageId }]. *)
Inductive Detail :=
| DetailImage (cachedImage : nat)
| DetailVolume (cachedVolume : nat)
| DetailImageId (imageId : string).

Inductive Effect :=
| TriggerEvent (type : EventName) (detail : Detail)
| ConsoleWarn (message : string)
| CallCancel (loadObject : LoadObject)
| CallDecache (loadObject : LoadObject).

(** The four private fields of the class, the heap of the entry objects it
    created, and the calls it made to its collaborators, oldest first. *)
Record World := {
  _imageCache : JsMap;
  _volumeCache : JsMap;
  _cacheSize : Z;
  _maxCacheSize : Z;
  imageHeap : list CachedImage.t;
  volumeHeap : list CachedVolume.t;
  trace : list Effect }.

Definition set_imageCache (f : JsMap -> JsMap) (w : World) : World :=
  {| _imageCache := f (_imageCache w); _volumeCache := _volumeCache w;
     _cacheSize := _cacheSize w; _maxCacheSize := _maxCacheSize w;
     imageHeap := imageHeap w; volumeHeap := volumeHeap w; trace := trace w |}.
Definition set_volumeCache (f : JsMap -> JsMap) (w : World) : World :=
  {| _imageCache := _imageCache w; _volumeCache := f (_volumeCache w);
     _cacheSize := _cacheSize w; _maxCacheSize := _maxCacheSize w;
     imageHeap := imageHeap w; volumeHeap := volumeHeap w; trace := trace w |}.
Definition set_cacheSize (f : Z -> Z) (w : World) : World :=
  {| _imageCache := _imageCache w; _volumeCache := _volumeCache w;
     _cacheSize := f (_cacheSize w); _maxCacheSize := _maxCacheSize w;
     imageHeap := imageHeap w; volumeHeap := volumeHeap w; trace := trace w |}.
Definition set_maxCacheSize (f : Z -> Z) (w : World) : World :=
  {| _imageCache := _imageCache w; _volumeCache := _volumeCache w;
     _cacheSize := _cacheSize w; _maxCacheSize := f (_maxCacheSize w);
     imageHeap := imageHeap w; volumeHeap := volumeHeap w; trace := trace w |}.
Definition set_imageHeap (f : list CachedImage.t -> list CachedImage.t) (w : World) : World :=
  {| _imageCache := _imageCache w; _volumeCache := _volumeCache w;
     _cacheSize := _cacheSize w; _maxCacheSize := _maxCacheSize w;
     imageHeap := f (imageHeap w); volumeHeap := volumeHeap w; trace := trace w |}.
Definition set_volumeHeap (f : list CachedVolume.t -> list CachedVolume.t) (w : World) : World :=
  {| _imageCache := _imageCache w; _volumeCache := _volumeCache w;
     _cacheSize := _cacheSize w; _maxCacheSize := _maxCacheSize w;
     imageHeap := imageHeap w; volumeHeap := f (volumeHeap w); trace := trace w |}.
Definition set_trace (f : list Effect -> list Effect) (w : World) : World :=
  {| _imageCache := _imageCache w; _volumeCache := _volumeCache w;
     _cacheSize := _cacheSize w; _maxCacheSize := _maxCacheSize w;
     imageHeap := imageHeap w; volumeHeap := volumeHeap w; trace := f (trace w) |}.

(** ** Calls: state and exceptions *)

Inductive Exn :=
| Error (message : string)
| TypeError (message : string)
| ReferenceError (message : string).

(** How a call ended.  [OutOfFuel] is the answer of a loop that was given too
    few turns; no method of the class produces it. *)
Inductive Completion (A : Type) :=
| Normal (value : A)
| Throw (e : Exn)
| OutOfFuel.
Arguments Normal {A} value.
Arguments Throw {A} e.
Arguments OutOfFuel {A}.

Definition M (A : Type) : Type := World -> Completion A * World.

Definition ret {A} (a : A) : M A := fun w => (Normal a, w).
Definition throw {A} (e : Exn) : M A := fun w => (Throw e, w).
Definition bind {A B} (c : M A) (k : A -> M B) : M B :=
  fun w =>
    match c w with
    | (Normal a, w') => k a w'
    | (Throw e, w') => (Throw e, w')
    | (OutOfFuel, w') => (OutOfFuel, w')
    end.
Definition gets {A} (f : World -> A) : M A := fun w => (Normal (f w), w).
Definition modify (f : World -> World) : M unit := fun w => (Normal tt, f w).
Definition when (b : bool) (c : M unit) : M unit := if b then c else ret tt.

Notation "x <- c ;; k" := (bind c (fun x => k))
  (at level 62, c at next level, right associativity).
Notation "c ;;; k" := (bind c (fun _ => k))
  (at level 62, right associativity).

Fixpoint forEach {A} (l : list A) (body : A -> M unit) : M unit :=
  match l with
  | [] => ret tt
  | x :: l' => body x ;;; forEach l' body
  end.

Definition emit (e : Effect) : M unit :=
  modify (set_trace (fun t => t ++ [e])).

Definition triggerEvent (type : EventName) (detail : Detail) : M unit :=
  emit (TriggerEvent type detail).

Definition console_warn (message : string) : M unit :=
  emit (ConsoleWarn message).

(** Assignment to a member of an entry object. *)
Definition assignImage (r : nat) (f : CachedImage.t -> CachedImage.t) : M unit :=
  modify (set_imageHeap (alter f r)).
Definition assignVolume (r : nat) (f : CachedVolume.t -> CachedVolume.t) : M unit :=
  modify (set_volumeHeap (alter f r)).

(** A new object literal: the reference is the next free index. *)
Definition newImage (e : CachedImage.t) : M nat :=
  fun w => (Normal (length (imageHeap w)), set_imageHeap (fun h => h ++ [e]) w).
Definition newVolume (e : CachedVolume.t) : M nat :=
  fun w => (Normal (length (volumeHeap w)), set_volumeHeap (fun h => h ++ [e]) w).

(** [this._imageCache.get(id)] followed through to the object. *)
Definition imageAt (w : World) (imageId : string) : option CachedImage.t :=
  r ← Map_get (_imageCache w) imageId; imageHeap w !! r.
Definition volumeAt (w : World) (volumeId : string) : option CachedVolume.t :=
  r ← Map_get (_volumeCache w) volumeId; volumeHeap w !! r.

(** ** The class *)

Definition MAX_CACHE_SIZE_1GB : Z := 1073741824.

(** [constructor()]: two empty maps, nothing counted, the default ceiling. *)
Definition new_Cache : World :=
  {| _imageCache := [];
     _volumeCache := [];
     _cacheSize := 0;
     _maxCacheSize := MAX_CACHE_SIZE_1GB;
     imageHeap := []; volumeHeap := []; trace := [] |}.

Definition getMaxCacheSize : M Z := gets _maxCacheSize.
Definition getCacheSize : M Z := gets _cacheSize.

Definition _incrementCacheSize (increment : Z) : M unit :=
  modify (set_cacheSize (fun size => size + increment)).

(** The message is a template; the two numbers it interpolates are left out. *)
Definition setMaxCacheSize_message : string :=
  "New max cacheSize larger than current cachesize. You should set the maxCacheSize before adding data to the cache.".

(** The field is assigned first, the comparison comes after. *)
Definition setMaxCacheSize (newMaxCacheSize : Z) : M unit :=
  modify (set_maxCacheSize (fun _ => newMaxCacheSize)) ;;;
  max <- gets _maxCacheSize ;;
  size <- gets _cacheSize ;;
  if max >? size then throw (Error setMaxCacheSize_message) else ret tt.

(** [const { imageLoadObject } = this._imageCache.get(imageId)] throws when
    the id is not in the map. *)
Definition _decacheImage (imageId : string) : M unit :=
  w <- gets id ;;
  match imageAt w imageId with
  | None => throw (TypeError "Cannot destructure property 'imageLoadObject' of undefined")
  | Some cachedImage =>
      let imageLoadObject := CachedImage.imageLoadObject cachedImage in
      when (cancel imageLoadObject) (emit (CallCancel imageLoadObject)) ;;;
      when (decache imageLoadObject) (emit (CallDecache imageLoadObject)) ;;;
      modify (set_imageCache (fun m => Map_delete m imageId))
  end.

Definition _decacheVolume (volumeId : string) : M unit :=
  w <- gets id ;;
  match volumeAt w volumeId with
  | None => throw (TypeError "Cannot destructure property 'volumeLoadObject' of undefined")
  | Some cachedVolume =>
      let volumeLoadObject := CachedVolume.volumeLoadObject cachedVolume in
      when (cancel volumeLoadObject) (emit (CallCancel volumeLoadObject)) ;;;
      when (decache volumeLoadObject) (emit (CallDecache volumeLoadObject)) ;;;
      modify (set_volumeCache (fun m => Map_delete m volumeId))
  end.

(** [getImageVolume] has no test for an undefined id: [Map.get(undefined)]
    finds nothing, since no put stores that key. *)
Definition getImageVolume (volumeId : option string) : M (option Volume.t) :=
  w <- gets id ;;
  match volumeId ≫= volumeAt w with
  | None => throw (Error "Not present in cache")
  | Some cachedVolume => ret (CachedVolume.volume cachedVolume)
  end.

(** [bytesAvailable] is a constant.  The loop is entered only when it is below
    [numBytes], and the first thing its body evaluates is [imageIterator], a
    name that no scope around the method binds. *)
Definition decacheUntilBytesAvailable (numBytes : Z) : M Z :=
  max <- getMaxCacheSize ;;
  size <- getCacheSize ;;
  let bytesAvailable := max - size in
  if bytesAvailable >=? numBytes then ret bytesAvailable
  else
    (if bytesAvailable <? numBytes
     then throw (ReferenceError "imageIterator is not defined")
     else ret tt) ;;;
    if bytesAvailable >=? numBytes then ret bytesAvailable
    else ret bytesAvailable.

(** The iterators of a [Map] are live.  The one change the two loops make to
    the map they walk is to delete the key just handed out, so each walk
    visits the keys that were there at the start, in order. *)
Definition purgeCache : M unit :=
  imageIds <- gets (fun w => Map_keys (_imageCache w)) ;;
  forEach imageIds _decacheImage ;;;
  volumeIds <- gets (fun w => Map_keys (_volumeCache w)) ;;
  forEach volumeIds _decacheVolume.

Definition removeImageLoadObject (imageId : option string) : M unit :=
  match imageId with
  | None => throw (Error "removeImageLoadObject: imageId must not be undefined")
  | Some imageId =>
      w <- gets id ;;
      match Map_get (_imageCache w) imageId with
      | None => throw (Error "removeImageLoadObject: imageId was not present in imageCache")
      | Some cachedImage =>
          _incrementCacheSize
            (- from_option CachedImage.sizeInBytes 0 (imageHeap w !! cachedImage)) ;;;
          triggerEvent IMAGE_CACHE_IMAGE_REMOVED (DetailImage cachedImage) ;;;
          _decacheImage imageId
      end
  end.

Definition removeVolumeLoadObject (volumeId : option string) : M unit :=
  match volumeId with
  | None => throw (Error "removeVolumeLoadObject: volumeId must not be undefined")
  | Some volumeId =>
      w <- gets id ;;
      match Map_get (_volumeCache w) volumeId with
      | None => throw (Error "removeVolumeLoadObject: volumeId was not present in volumeCache")
      | Some cachedVolume =>
          _incrementCacheSize
            (- from_option CachedVolume.sizeInBytes 0 (volumeHeap w !! cachedVolume)) ;;;
          triggerEvent IMAGE_CACHE_VOLUME_REMOVED (DetailVolume cachedVolume) ;;;
          _decacheVolume volumeId
      end
  end.

(** [this._imageCache.values()] is a [Map] iterator, and a [Map] iterator has
    no [sort] method: when the total is over the ceiling the call
    [cachedImages.sort(compare)] throws before the loop under it is reached. *)
Definition _purgeCacheIfNecessary : M unit :=
  size <- getCacheSize ;;
  max <- getMaxCacheSize ;;
  if size <=? max then ret tt
  else throw (TypeError "cachedImages.sort is not a function").

(** *** Insertion, and the two callbacks a put hands to [promise.then]

    [now] is what [Date.now()] returns during the call.  The callbacks are
    functions of the variables they close over: the id and the entry object
    that the put created. *)

Definition purgedWarning : string :=
  "The image was purged from the cache before it completed loading.".

Section PromiseCallbacks.

(** What the call [this._purgeCacheIfNecessary()] runs. *)
Variable sweep : M unit.

Definition imagePromiseFulfilledWith
    (imageId : string) (cachedImage : nat) (image : Image.t) : M unit :=
  w <- gets id ;;
  match Map_get (_imageCache w) imageId with
  | None =>
      console_warn purgedWarning
  | Some _ =>
      assignImage cachedImage (CachedImage.set_loaded true) ;;;
      assignImage cachedImage (CachedImage.set_image (Some image)) ;;;
      match Image.sizeInBytes image with
      | JsUndefined =>
          throw (Error "putImageLoadObject: image.sizeInBytes must not be undefined")
      | JsNull =>
          throw (TypeError "Cannot read properties of null (reading 'toFixed')")
      | JsString _ =>
          throw (Error "putImageLoadObject: image.sizeInBytes is not a number")
      | JsNumber sizeInBytes =>
          assignImage cachedImage (CachedImage.set_sizeInBytes sizeInBytes) ;;;
          _incrementCacheSize sizeInBytes ;;;
          triggerEvent IMAGE_CACHE_IMAGE_ADDED (DetailImage cachedImage) ;;;
          assignImage cachedImage
            (CachedImage.set_sharedCacheKey (Image.sharedCacheKey image)) ;;;
          sweep
      end
  end.

Definition volumePromiseFulfilledWith
    (volumeId : string) (cachedVolume : nat) (volume : Volume.t) : M unit :=
  w <- gets id ;;
  match Map_get (_volumeCache w) volumeId with
  | None =>
      console_warn purgedWarning
  | Some _ =>
      assignVolume cachedVolume (CachedVolume.set_loaded true) ;;;
      assignVolume cachedVolume (CachedVolume.set_volume (Some volume)) ;;;
      match Volume.sizeInBytes volume with
      | JsUndefined =>
          throw (Error "putVolumeLoadObject: volume.sizeInBytes must not be undefined")
      | JsNull =>
          throw (TypeError "Cannot read properties of null (reading 'toFixed')")
      | JsString _ =>
          throw (Error "putVolumeLoadObject: volume.sizeInBytes is not a number")
      | JsNumber sizeInBytes =>
          assignVolume cachedVolume (CachedVolume.set_sizeInBytes sizeInBytes) ;;;
          _incrementCacheSize sizeInBytes ;;;
          triggerEvent IMAGE_CACHE_VOLUME_ADDED (DetailVolume cachedVolume) ;;;
          sweep
      end
  end.

End PromiseCallbacks.

Definition imagePromiseFulfilled := imagePromiseFulfilledWith _purgeCacheIfNecessary.
Definition volumePromiseFulfilled := volumePromiseFulfilledWith _purgeCacheIfNecessary.

Definition imagePromiseRejected (imageId : string) (error : string) : M unit :=
  console_warn error ;;;
  modify (set_imageCache (fun m => Map_delete m imageId)).

(** The class has no member [_volumeLoadObjects]: the first statement after
    the warning reads [delete] off [undefined]. *)
Definition volumePromiseRejected (volumeId : string) (error : string) : M unit :=
  console_warn error ;;;
  (throw (TypeError "Cannot read properties of undefined (reading 'delete')") : M unit) ;;;
  modify (set_volumeCache (fun m => Map_delete m volumeId)).

Definition putImageLoadObject
    (now : Z) (imageId : option string) (imageLoadObject : ImageLoadObject) : M unit :=
  match imageId with
  | None => throw (Error "putImageLoadObject: imageId must not be undefined")
  | Some imageId =>
      match promise imageLoadObject with
      | None =>
          throw (Error "putImageLoadObject: imageLoadObject.promise must not be undefined")
      | Some _ =>
          own <- gets (fun w => Map_hasOwnProperty (_imageCache w) imageId) ;;
          if own then throw (Error "putImageLoadObject: imageId already in cache")
          else
            match cancelFn imageLoadObject with
            | CancelFnOther =>
                throw (Error "putImageLoadObject: imageLoadObject.cancelFn must be a function")
            | _ =>
                cachedImage <- newImage
                  {| CachedImage.image := None;
                     CachedImage.imageId := imageId;
                     CachedImage.imageLoadObject := imageLoadObject;
                     CachedImage.loaded := false;
                     CachedImage.sharedCacheKey := None;
                     CachedImage.timeStamp := now;
                     CachedImage.sizeInBytes := 0 |} ;;
                modify (set_imageCache (fun m => Map_set m imageId cachedImage))
            end
      end
  end.

Definition putVolumeLoadObject
    (now : Z) (volumeId : option string) (volumeLoadObject : VolumeLoadObject) : M unit :=
  match volumeId with
  | None => throw (Error "putVolumeLoadObject: volumeId must not be undefined")
  | Some volumeId =>
      match promise volumeLoadObject with
      | None =>
          throw (Error "putVolumeLoadObject: volumeLoadObject.promise must not be undefined")
      | Some _ =>
          own <- gets (fun w => Map_hasOwnProperty (_volumeCache w) volumeId) ;;
          if own then throw (Error "putVolumeLoadObject: volumeId already in cache")
          else
            match cancelFn volumeLoadObject with
            | CancelFnOther =>
                throw (Error "putVolumeLoadObject: volumeLoadObject.cancelFn must be a function")
            | _ =>
                cachedVolume <- newVolume
                  {| CachedVolume.volume := None;
                     CachedVolume.volumeId := volumeId;
                     CachedVolume.volumeLoadObject := volumeLoadObject;
                     CachedVolume.loaded := false;
                     CachedVolume.timeStamp := now;
                     CachedVolume.sizeInBytes := 0 |} ;;
                modify (set_volumeCache (fun m => Map_set m volumeId cachedVolume))
            end
      end
  end.

(** *** Lookups; [None] is [undefined] *)

Definition getImageLoadObject (now : Z) (imageId : option string)
    : M (option ImageLoadObject) :=
  match imageId with
  | None => throw (Error "getImageLoadObject: imageId must not be undefined")
  | Some imageId =>
      w <- gets id ;;
      match Map_get (_imageCache w) imageId with
      | None => ret None
      | Some cachedImage =>
          assignImage cachedImage (CachedImage.set_timeStamp now) ;;;
          ret (CachedImage.imageLoadObject <$> imageHeap w !! cachedImage)
      end
  end.

Definition getVolumeLoadObject (now : Z) (volumeId : option string)
    : M (option VolumeLoadObject) :=
  match volumeId with
  | None => throw (Error "getVolumeLoadObject: volumeId must not be undefined")
  | Some volumeId =>
      w <- gets id ;;
      match Map_get (_volumeCache w) volumeId with
      | None => ret None
      | Some cachedVolume =>
          assignVolume cachedVolume (CachedVolume.set_timeStamp now) ;;;
          ret (CachedVolume.volumeLoadObject <$> volumeHeap w !! cachedVolume)
      end
  end.

Definition getVolume (now : Z) (volumeId : option string) : M (option Volume.t) :=
  match volumeId with
  | None => throw (Error "getVolume: volumeId must not be undefined")
  | Some volumeId =>
      w <- gets id ;;
      match Map_get (_volumeCache w) volumeId with
      | None => ret None
      | Some cachedVolume =>
          assignVolume cachedVolume (CachedVolume.set_timeStamp now) ;;;
          ret (volumeHeap w !! cachedVolume ≫= CachedVolume.volume)
      end
  end.

(** ** Running a client

    A client makes one call after another and may catch what a call throws;
    promise callbacks run as tasks of their own.  [calls] runs a list of such
    calls in order and keeps how each completed. *)
Fixpoint calls (cs : list (M unit)) (w : World) : list (Completion unit) * World :=
  match cs with
  | [] => ([], w)
  | c :: cs' =>
      let (r, w1) := c w in
      let (rs, w2) := calls cs' w1 in
      (r :: rs, w2)
  end.

Definition after (cs : list (M unit)) : World := snd (calls cs new_Cache).

(** ** The sweep on an array

    [_purgeCacheIfNecessary] calls [sort] and indexes with [length], which an
    array has and a [Map] iterator has not.  This module follows the same body
    with [cachedImages] read as the array of the map's values, to see what the
    statements under the failing call do.  The class above does not use it. *)

Module ArrayReading.

(** [compare(a, b)] on the two time stamps: the newer one first. *)
Definition compare (a b : Z) : Z :=
  if a >? b then -1 else if a <? b then 1 else 0.

Definition timeStampOf (w : World) (r : nat) : Z :=
  from_option CachedImage.timeStamp 0 (imageHeap w !! r).

(** [Array.prototype.sort] is stable. *)
Fixpoint insert (w : World) (r : nat) (l : list nat) : list nat :=
  match l with
  | [] => [r]
  | r' :: l' =>
      if compare (timeStampOf w r) (timeStampOf w r') <=? 0
      then r :: r' :: l'
      else r' :: insert w r l'
  end.

Definition sort (w : World) (l : list nat) : list nat :=
  foldr (insert w) [] l.

(** The loop reads the last element of the array again on every turn; the
    array is never shortened. *)
Fixpoint evict (fuel : nat) (cachedImages : list nat) : M unit :=
  match fuel with
  | O => fun w => (OutOfFuel, w)
  | S fuel' =>
      size <- getCacheSize ;;
      max <- getMaxCacheSize ;;
      if size >? max then
        w <- gets id ;;
        match last cachedImages ≫= (fun r => imageHeap w !! r) with
        | None =>
            throw (TypeError "Cannot read properties of undefined (reading 'imageId')")
        | Some lastCachedImage =>
            let imageId := CachedImage.imageId lastCachedImage in
            removeImageLoadObject (Some imageId) ;;;
            triggerEvent IMAGE_CACHE_IMAGE_REMOVED (DetailImageId imageId) ;;;
            evict fuel' cachedImages
        end
      else ret tt
  end.

Definition _purgeCacheIfNecessary (fuel : nat) : M unit :=
  size <- getCacheSize ;;
  max <- getMaxCacheSize ;;
  if size <=? max then ret tt
  else
    w <- gets id ;;
    evict fuel (sort w (Map_values (_imageCache w))).

Definition imagePromiseFulfilled (fuel : nat) :=
  imagePromiseFulfilledWith (_purgeCacheIfNecessary fuel).
Definition volumePromiseFulfilled (fuel : nat) :=
  volumePromiseFulfilledWith (_purgeCacheIfNecessary fuel).

End ArrayReading.

(** ** The capacity pre-check

    [ERROR_CODES.CACHE_SIZE_EXCEEDED] is defined in enums/errorCodes; its
    value is a parameter here. *)

Section ErrorCodes.

Variable CACHE_SIZE_EXCEEDED : string.

Definition checkCacheSizeCanSupportVolume (byteLength : Z) : M unit :=
  size <- getCacheSize ;;
  max <- getMaxCacheSize ;;
  if size + byteLength >? max then throw (Error CACHE_SIZE_EXCEEDED) else ret tt.

(** ** Every call that reaches the cache

    The public methods, and the four callbacks that the puts register.  A
    callback is listed with any id and any entry reference: the runs of the
    program are among the sequences of these calls. *)
Inductive Op :=
| OpSetMaxCacheSize (newMaxCacheSize : Z)
| OpCheckCacheSizeCanSupportVolume (byteLength : Z)
| OpGetMaxCacheSize
| OpGetCacheSize
| OpGetImageVolume (volumeId : option string)
| OpDecacheUntilBytesAvailable (numBytes : Z)
| OpPurgeCache
| OpPutImageLoadObject (now : Z) (imageId : option string) (imageLoadObject : ImageLoadObject)
| OpGetImageLoadObject (now : Z) (imageId : option string)
| OpPutVolumeLoadObject (now : Z) (volumeId : option string) (volumeLoadObject : VolumeLoadObject)
| OpGetVolumeLoadObject (now : Z) (volumeId : option string)
| OpGetVolume (now : Z) (volumeId : option string)
| OpRemoveImageLoadObject (imageId : option string)
| OpRemoveVolumeLoadObject (volumeId : option string)
| OpImagePromiseFulfilled (imageId : string) (cachedImage : nat) (image : Image.t)
| OpImagePromiseRejected (imageId : string) (error : string)
| OpVolumePromiseFulfilled (volumeId : string) (cachedVolume : nat) (volume : Volume.t)
| OpVolumePromiseRejected (volumeId : string) (error : string).

(** The world a call leaves, however it completed. *)
Definition perform (op : Op) (w : World) : World :=
  match op with
  | OpSetMaxCacheSize n => snd (setMaxCacheSize n w)
  | OpCheckCacheSizeCanSupportVolume n => snd (checkCacheSizeCanSupportVolume n w)
  | OpGetMaxCacheSize => snd (getMaxCacheSize w)
  | OpGetCacheSize => snd (getCacheSize w)
  | OpGetImageVolume volumeId => snd (getImageVolume volumeId w)
  | OpDecacheUntilBytesAvailable n => snd (decacheUntilBytesAvailable n w)
  | OpPurgeCache => snd (purgeCache w)
  | OpPutImageLoadObject now imageId lo => snd (putImageLoadObject now imageId lo w)
  | OpGetImageLoadObject now imageId => snd (getImageLoadObject now imageId w)
  | OpPutVolumeLoadObject now volumeId lo => snd (putVolumeLoadObject now volumeId lo w)
  | OpGetVolumeLoadObject now volumeId => snd (getVolumeLoadObject now volumeId w)
  | OpGetVolume now volumeId => snd (getVolume now volumeId w)
  | OpRemoveImageLoadObject imageId => snd (removeImageLoadObject imageId w)
  | OpRemoveVolumeLoadObject volumeId => snd (removeVolumeLoadObject volumeId w)
  | OpImagePromiseFulfilled imageId r image => snd (imagePromiseFulfilled imageId r image w)
  | OpImagePromiseRejected imageId error => snd (imagePromiseRejected imageId error w)
  | OpVolumePromiseFulfilled volumeId r volume => snd (volumePromiseFulfilled volumeId r volume w)
  | OpVolumePromiseRejected volumeId error => snd (volumePromiseRejected volumeId error w)
  end.

Fixpoint run (ops : list Op) (w : World) : World :=
  match ops with
  | [] => w
  | op :: ops' => run ops' (perform op w)
  end.

End ErrorCodes.

(** A property of the world that a computation keeps, whether it returns or
    throws. *)
Definition keeps {A} (I : World -> Prop) (c : M A) : Prop :=
  forall w, I w -> I (snd (c w)).

(** ** The state the calls maintain

    An entry that is not loaded has size 0; an entry is cached under its own
    id; no id and no entry object stands twice in a collection. *)
Definition imageSizeOk (e : CachedImage.t) : Prop :=
  CachedImage.loaded e = false -> CachedImage.sizeInBytes e = 0.

Definition volumeSizeOk (e : CachedVolume.t) : Prop :=
  CachedVolume.loaded e = false -> CachedVolume.sizeInBytes e = 0.

Definition imageKeyed (heap : list CachedImage.t) (kr : string * nat) : Prop :=
  CachedImage.imageId <$> heap !! snd kr = Some (fst kr).

Definition volumeKeyed (heap : list CachedVolume.t) (kr : string * nat) : Prop :=
  CachedVolume.volumeId <$> heap !! snd kr = Some (fst kr).

Record consistent (w : World) : Prop := {
  cons_imageKeys : NoDup (Map_keys (_imageCache w));
  cons_volumeKeys : NoDup (Map_keys (_volumeCache w));
  cons_imageValues : NoDup (Map_values (_imageCache w));
  cons_volumeValues : NoDup (Map_values (_volumeCache w));
  cons_imageIds : Forall (imageKeyed (imageHeap w)) (_imageCache w);
  cons_volumeIds : Forall (volumeKeyed (volumeHeap w)) (_volumeCache w);
  cons_imageSizes : Forall imageSizeOk (imageHeap w);
  cons_volumeSizes : Forall volumeSizeOk (volumeHeap w) }.

(** ** Which calls write which field *)

Definition writesCacheSize (op : Op) : bool :=
  match op with
  | OpImagePromiseFulfilled _ _ _
  | OpVolumePromiseFulfilled _ _ _
  | OpRemoveImageLoadObject _
  | OpRemoveVolumeLoadObject _ => true
  | _ => false
  end.

Definition writesImageCache (op : Op) : bool :=
  match op with
  | OpPutImageLoadObject _ _ _
  | OpRemoveImageLoadObject _
  | OpImagePromiseRejected _ _
  | OpPurgeCache => true
  | _ => false
  end.

Definition writesVolumeCache (op : Op) : bool :=
  match op with
  | OpPutVolumeLoadObject _ _ _
  | OpRemoveVolumeLoadObject _
  | OpPurgeCache => true
  | _ => false
  end.

Definition writesMaxCacheSize (op : Op) : bool :=
  match op with
  | OpSetMaxCacheSize _ => true
  | _ => false
  end.

(** ** The entry object a put creates *)

Definition pendingImage (now : Z) (imageId : string) (imageLoadObject : ImageLoadObject)
    : CachedImage.t :=
  {| CachedImage.image := None;
     CachedImage.imageId := imageId;
     CachedImage.imageLoadObject := imageLoadObject;
     CachedImage.loaded := false;
     CachedImage.sharedCacheKey := None;
     CachedImage.timeStamp := now;
     CachedImage.sizeInBytes := 0 |}.

Definition pendingVolume (now : Z) (volumeId : string) (volumeLoadObject : VolumeLoadObject)
    : CachedVolume.t :=
  {| CachedVolume.volume := None;
     CachedVolume.volumeId := volumeId;
     CachedVolume.volumeLoadObject := volumeLoadObject;
     CachedVolume.loaded := false;
     CachedVolume.timeStamp := now;
     CachedVolume.sizeInBytes := 0 |}.

(** A load object that a put accepts. *)
Definition acceptable (loadObject : LoadObject) : Prop :=
  promise loadObject <> None /\ cancelFn loadObject <> CancelFnOther.

(** ** What the specification measures *)

(** The bytes an entry object stands for: its size once it is loaded. *)
Definition entryBytes (is_loaded : bool) (sizeInBytes : Z) : Z :=
  if is_loaded then sizeInBytes else 0.

Definition imageBytes (heap : list CachedImage.t) (r : nat) : Z :=
  match heap !! r with
  | Some e => entryBytes (CachedImage.loaded e) (CachedImage.sizeInBytes e)
  | None => 0
  end.

Definition volumeBytes (heap : list CachedVolume.t) (r : nat) : Z :=
  match heap !! r with
  | Some e => entryBytes (CachedVolume.loaded e) (CachedVolume.sizeInBytes e)
  | None => 0
  end.

Fixpoint sumZ (l : list Z) : Z :=
  match l with
  | [] => 0
  | x :: l' => x + sumZ l'
  end.

(** The sum of [sizeInBytes] over the loaded entries of both collections. *)
Definition loadedBytes (w : World) : Z :=
  sumZ (map (imageBytes (imageHeap w)) (Map_values (_imageCache w)))
  + sumZ (map (volumeBytes (volumeHeap w)) (Map_values (_volumeCache w))).

(** The invariant of the specification: the running total is that sum. *)
Definition accounted (w : World) : Prop := _cacheSize w = loadedBytes w.

(** ** The calls under which the byte accounting survives

    A purge of a cache that counts 0 bytes; a put of an id that is not cached;
    a completion that arrives when its id is not cached, or when the entry
    cached under its id is the entry of that load and is not loaded yet; the
    rejection of an image load whose cached entry stands for 0 bytes; and
    every other call. *)
Definition accountingStep (w : World) (op : Op) : Prop :=
  match op with
  | OpPurgeCache => _cacheSize w = 0
  | OpPutImageLoadObject _ (Some imageId) _ => Map_get (_imageCache w) imageId = None
  | OpPutVolumeLoadObject _ (Some volumeId) _ => Map_get (_volumeCache w) volumeId = None
  | OpImagePromiseFulfilled imageId r _ =>
      Map_get (_imageCache w) imageId = None \/
      (Map_get (_imageCache w) imageId = Some r /\
       CachedImage.loaded <$> imageHeap w !! r = Some false)
  | OpVolumePromiseFulfilled volumeId r _ =>
      Map_get (_volumeCache w) volumeId = None \/
      (Map_get (_volumeCache w) volumeId = Some r /\
       CachedVolume.loaded <$> volumeHeap w !! r = Some false)
  | OpImagePromiseRejected imageId _ =>
      forall r, Map_get (_imageCache w) imageId = Some r -> imageBytes (imageHeap w) r = 0
  | _ => True
  end.

(** A run all of whose calls are of that kind, each judged in the world it
    is made in. *)
Fixpoint accountingRun (code : string) (w : World) (ops : list Op) : Prop :=
  match ops with
  | [] => True
  | op :: ops' => accountingStep w op /\ accountingRun code (perform code op w) ops'
  end.

(** The calls [_decacheImage] and [_decacheVolume] make to the hooks of a load
    object. *)
Definition hookCalls (loadObject : LoadObject) : list Effect :=
  (if cancel loadObject then [CallCancel loadObject] else [])
  ++ (if decache loadObject then [CallDecache loadObject] else []).

(** The hook calls for the entry object behind a reference. *)
Definition imageHookCalls (heap : list CachedImage.t) (r : nat) : list Effect :=
  match heap !! r with
  | Some e => hookCalls (CachedImage.imageLoadObject e)
  | None => []
  end.

Definition volumeHookCalls (heap : list CachedVolume.t) (r : nat) : list Effect :=
  match heap !! r with
  | Some e => hookCalls (CachedVolume.volumeLoadObject e)
  | None => []
  end.

(** ** Sample loaders and artifacts used by the examples *)

Definition loader (p : nat) : LoadObject :=
  {| promise := Some p; cancel := true; decache := true; cancelFn := CancelFnFalsy |}.

Definition imageOf (sizeInBytes : JsVal) : Image.t :=
  {| Image.sizeInBytes := sizeInBytes; Image.sharedCacheKey := None |}.

Definition volumeOf (sizeInBytes : JsVal) : Volume.t :=
  {| Volume.sizeInBytes := sizeInBytes |}.

(** A size the completion callbacks refuse. *)
Definition notNumeric (v : JsVal) : Prop :=
  match v with
  | JsNumber _ => False
  | _ => True
  end.

(** The references a collection holds are objects of the heap, and no id
    stands twice in a collection. *)
Record wellFormed (w : World) : Prop := {
  wf_imageKeys : NoDup (Map_keys (_imageCache w));
  wf_volumeKeys : NoDup (Map_keys (_volumeCache w));
  wf_imageRefs : Forall (fun r => is_Some (imageHeap w !! r)) (Map_values (_imageCache w));
  wf_volumeRefs : Forall (fun r => is_Some (volumeHeap w !! r)) (Map_values (_volumeCache w)) }.

(** * Properties *)

(** ** The maps *)

Lemma Map_get_delete_eq (m : JsMap) (k : string) :
  Map_get (Map_delete m k) k = None.
Proof.
  induction m as [|[k' r] m IH]; simpl; [reflexivity|].
  destruct (String.eqb k' k) eqn:E; simpl; [exact IH|].
  rewrite E. exact IH.
Qed.

Lemma Map_get_delete_ne (m : JsMap) (k k' : string) :
  k <> k' -> Map_get (Map_delete m k) k' = Map_get m k'.
Proof.
  intros Hne. induction m as [|[k0 r] m IH]; simpl; [reflexivity|].
  destruct (String.eqb k0 k) eqn:E.
  - apply String.eqb_eq in E. subst k0.
    destruct (String.eqb k k') eqn:E'; [apply String.eqb_eq in E'; contradiction|].
    exact IH.
  - simpl. rewrite IH. reflexivity.
Qed.

Lemma Map_get_set_eq (m : JsMap) (k : string) (r : nat) :
  Map_get (Map_set m k r) k = Some r.
Proof.
  induction m as [|[k' r'] m IH]; simpl.
  - rewrite String.eqb_refl. reflexivity.
  - destruct (String.eqb k' k) eqn:E; simpl.
    + rewrite String.eqb_refl. reflexivity.
    + rewrite E. exact IH.
Qed.

Lemma Map_get_None_keys (m : JsMap) (k : string) :
  Map_get m k = None <-> ~ In k (Map_keys m).
Proof.
  induction m as [|[k' r] m IH]; simpl.
  - tauto.
  - destruct (String.eqb k' k) eqn:E.
    + apply String.eqb_eq in E. split; [discriminate|]. intros H. exfalso. apply H. left. exact E.
    + apply String.eqb_neq in E. rewrite IH. tauto.
Qed.

Lemma Map_delete_absent (m : JsMap) (k : string) :
  ~ In k (Map_keys m) -> Map_delete m k = m.
Proof.
  induction m as [|[k' r] m IH]; simpl; [reflexivity|].
  intros H. destruct (String.eqb k' k) eqn:E.
  - apply String.eqb_eq in E. exfalso. apply H. left. exact E.
  - f_equal. apply IH. tauto.
Qed.

Lemma Map_delete_head (m : JsMap) (k : string) (r : nat) :
  ~ In k (Map_keys m) -> Map_delete ((k, r) :: m) k = m.
Proof.
  intros H. simpl. rewrite String.eqb_refl. apply Map_delete_absent. exact H.
Qed.

(** ** Construction *)

(** C9. A cache that was just constructed holds no image and no volume,
    counts 0 bytes, and has a ceiling of 1073741824 bytes. *)
Theorem new_Cache_empty_with_default_ceiling :
  _imageCache new_Cache = [] /\
  _volumeCache new_Cache = [] /\
  getCacheSize new_Cache = (Normal 0, new_Cache) /\
  getMaxCacheSize new_Cache = (Normal 1073741824, new_Cache).
Proof. repeat split. Qed.

(** ** The two volume accessors on an id that is not cached *)

Lemma volumeAt_absent (w : World) (volumeId : string) :
  Map_get (_volumeCache w) volumeId = None -> volumeAt w volumeId = None.
Proof. intros H. unfold volumeAt. rewrite H. reflexivity. Qed.

(** C10. For a volume id that the volume collection does not hold,
    [getImageVolume] throws the error 'Not present in cache', and [getVolume]
    returns [undefined]; neither changes the world. *)
Theorem absent_volume_accessors_disagree :
  forall (w : World) (now : Z) (volumeId : string),
    Map_get (_volumeCache w) volumeId = None ->
    getImageVolume (Some volumeId) w = (Throw (Error "Not present in cache"), w) /\
    getVolume now (Some volumeId) w = (Normal None, w).
Proof.
  intros w now volumeId Habsent. split.
  - unfold getImageVolume, bind, gets. simpl.
    rewrite (volumeAt_absent _ _ Habsent). reflexivity.
  - unfold getVolume, bind, gets. simpl. rewrite Habsent. reflexivity.
Qed.

Lemma absent_volume_accessors_disagree_witness :
  Map_get (_volumeCache new_Cache) "ct-1" = None /\
  getImageVolume (Some "ct-1") new_Cache = (Throw (Error "Not present in cache"), new_Cache) /\
  getVolume 7 (Some "ct-1") new_Cache = (Normal None, new_Cache).
Proof.
  split; [reflexivity|].
  apply (absent_volume_accessors_disagree new_Cache 7 "ct-1"). reflexivity.
Defined.

(** ** The ceiling *)

(** [setMaxCacheSize] stores the new ceiling whatever happens next, and throws
    exactly when the new ceiling is above the running total.  It touches
    nothing else. *)
Lemma setMaxCacheSize_spec (w : World) (newMaxCacheSize : Z) :
  setMaxCacheSize newMaxCacheSize w =
    (if newMaxCacheSize >? _cacheSize w
     then Throw (Error setMaxCacheSize_message) else Normal tt,
     set_maxCacheSize (fun _ => newMaxCacheSize) w).
Proof.
  unfold setMaxCacheSize, bind, modify, gets. simpl.
  destruct (newMaxCacheSize >? _cacheSize w); reflexivity.
Qed.

(** C3, on the code.  On a new cache, which counts 0 bytes, the ceiling 100 is
    refused with an Error, and stored all the same.  On a cache that counts 60
    bytes, the ceiling 50 is accepted. *)
Theorem setMaxCacheSize_guard_inverted :
  setMaxCacheSize 100 new_Cache =
    (Throw (Error setMaxCacheSize_message),
     set_maxCacheSize (fun _ => 100) new_Cache) /\
  let w := after [putImageLoadObject 1 (Some "A") (loader 1);
                  imagePromiseFulfilled "A" 0%nat (imageOf (JsNumber 60))] in
  _cacheSize w = 60 /\
  _maxCacheSize w = 1073741824 /\
  setMaxCacheSize 50 w = (Normal tt, set_maxCacheSize (fun _ => 50) w) /\
  _maxCacheSize (snd (setMaxCacheSize 50 w)) = 50.
Proof. vm_compute. repeat split. Qed.

(** ** Making room on demand *)

(** [decacheUntilBytesAvailable] returns the headroom when it is enough, and
    otherwise throws on the unbound name.  It never removes anything. *)
Lemma decacheUntilBytesAvailable_spec (w : World) (numBytes : Z) :
  decacheUntilBytesAvailable numBytes w =
    (if _maxCacheSize w - _cacheSize w >=? numBytes
     then Normal (_maxCacheSize w - _cacheSize w)
     else Throw (ReferenceError "imageIterator is not defined"),
     w).
Proof.
  unfold decacheUntilBytesAvailable, bind, getMaxCacheSize, getCacheSize, gets.
  simpl.
  destruct (_maxCacheSize w - _cacheSize w >=? numBytes) eqn:E; [reflexivity|].
  assert (L : (_maxCacheSize w - _cacheSize w <? numBytes) = true) by lia.
  rewrite L. reflexivity.
Qed.

(** C8, on the code.  Ceiling 100, one loaded image of 30 bytes and one loaded
    volume of 30 bytes: the headroom is 40.  Asking for 50 bytes throws a
    ReferenceError, the image stays, and the headroom is still 40.  The same
    under the default ceiling, where [setMaxCacheSize] is not called: with one
    loaded image of 30 bytes, asking for 1073741800 bytes throws and removes
    nothing. *)
Theorem decacheUntilBytesAvailable_throws_when_short :
  (let w := after [setMaxCacheSize 100;
                   putImageLoadObject 1 (Some "A") (loader 1);
                   imagePromiseFulfilled "A" 0%nat (imageOf (JsNumber 30));
                   putVolumeLoadObject 2 (Some "V") (loader 2);
                   volumePromiseFulfilled "V" 0%nat (volumeOf (JsNumber 30))] in
   _maxCacheSize w - _cacheSize w = 40 /\
   Map_keys (_imageCache w) = ["A"] /\
   imageBytes (imageHeap w) 0 = 30 /\
   decacheUntilBytesAvailable 50 w =
     (Throw (ReferenceError "imageIterator is not defined"), w)) /\
  (let w := after [putImageLoadObject 1 (Some "A") (loader 1);
                   imagePromiseFulfilled "A" 0%nat (imageOf (JsNumber 30))] in
   _maxCacheSize w - _cacheSize w = 1073741794 /\
   Map_keys (_imageCache w) = ["A"] /\
   decacheUntilBytesAvailable 1073741800 w =
     (Throw (ReferenceError "imageIterator is not defined"), w)).
Proof. vm_compute. repeat split. Qed.

(** ** Insertion *)

(** A put with a promise and an acceptable [cancelFn] completes normally in
    every world, whether or not the id is already a key: it creates an entry
    object and stores it under the id. *)
Lemma putImageLoadObject_accepts (w : World) (now : Z) (imageId : string)
    (imageLoadObject : ImageLoadObject) :
  promise imageLoadObject <> None ->
  cancelFn imageLoadObject <> CancelFnOther ->
  let (r, w') := putImageLoadObject now (Some imageId) imageLoadObject w in
  r = Normal tt /\
  Map_get (_imageCache w') imageId = Some (length (imageHeap w)) /\
  length (imageHeap w') = S (length (imageHeap w)).
Proof.
  intros Hp Hc. unfold putImageLoadObject.
  destruct (promise imageLoadObject) as [p|]; [|contradiction].
  unfold bind, gets, Map_hasOwnProperty, newImage, modify.
  destruct (cancelFn imageLoadObject); try contradiction; simpl;
    rewrite Map_get_set_eq, length_app; simpl;
    (split; [reflexivity|split; [reflexivity|lia]]).
Qed.

Lemma putVolumeLoadObject_accepts (w : World) (now : Z) (volumeId : string)
    (volumeLoadObject : VolumeLoadObject) :
  promise volumeLoadObject <> None ->
  cancelFn volumeLoadObject <> CancelFnOther ->
  let (r, w') := putVolumeLoadObject now (Some volumeId) volumeLoadObject w in
  r = Normal tt /\
  Map_get (_volumeCache w') volumeId = Some (length (volumeHeap w)) /\
  length (volumeHeap w') = S (length (volumeHeap w)).
Proof.
  intros Hp Hc. unfold putVolumeLoadObject.
  destruct (promise volumeLoadObject) as [p|]; [|contradiction].
  unfold bind, gets, Map_hasOwnProperty, newVolume, modify.
  destruct (cancelFn volumeLoadObject); try contradiction; simpl;
    rewrite Map_get_set_eq, length_app; simpl;
    (split; [reflexivity|split; [reflexivity|lia]]).
Qed.

(** C5, on the code.  Two puts of the id "A" in a row, for images and for
    volumes: both complete normally, and the collection then holds under "A"
    the entry object of the second put (reference 1) in place of the first.
    A put of "A" after its removal completes normally as well. *)
Theorem second_put_of_same_id_accepted :
  (let (rs, w) := calls [putImageLoadObject 1 (Some "A") (loader 1);
                         putImageLoadObject 2 (Some "A") (loader 2)] new_Cache in
   rs = [Normal tt; Normal tt] /\
   _imageCache w = [("A", 1%nat)] /\
   length (imageHeap w) = 2%nat) /\
  (let (rs, w) := calls [putVolumeLoadObject 1 (Some "V") (loader 1);
                         putVolumeLoadObject 2 (Some "V") (loader 2)] new_Cache in
   rs = [Normal tt; Normal tt] /\
   _volumeCache w = [("V", 1%nat)] /\
   length (volumeHeap w) = 2%nat) /\
  (let (rs, w) := calls [putImageLoadObject 1 (Some "A") (loader 1);
                         removeImageLoadObject (Some "A");
                         putImageLoadObject 2 (Some "A") (loader 2)] new_Cache in
   rs = [Normal tt; Normal tt; Normal tt] /\
   _imageCache w = [("A", 1%nat)]).
Proof. vm_compute. repeat split. Qed.

(** ** Completion of a load *)

(** When the id is not a key of the collection at the time the promise is
    fulfilled, the callback warns on the console and does nothing else. *)
Lemma imagePromiseFulfilled_absent_id (sweep : M unit) (w : World)
    (imageId : string) (cachedImage : nat) (image : Image.t) :
  Map_get (_imageCache w) imageId = None ->
  imagePromiseFulfilledWith sweep imageId cachedImage image w =
    (Normal tt, set_trace (fun t => t ++ [ConsoleWarn purgedWarning]) w).
Proof.
  intros H. unfold imagePromiseFulfilledWith, bind, gets. simpl.
  rewrite H. reflexivity.
Qed.

Lemma volumePromiseFulfilled_absent_id (sweep : M unit) (w : World)
    (volumeId : string) (cachedVolume : nat) (volume : Volume.t) :
  Map_get (_volumeCache w) volumeId = None ->
  volumePromiseFulfilledWith sweep volumeId cachedVolume volume w =
    (Normal tt, set_trace (fun t => t ++ [ConsoleWarn purgedWarning]) w).
Proof.
  intros H. unfold volumePromiseFulfilledWith, bind, gets. simpl.
  rewrite H. reflexivity.
Qed.

(** C6, on the code.  The image "A" is put, removed while its load is pending,
    and put again.  The entry object of the first put (reference 0) is no
    longer in the collection.  When the first load is then fulfilled with an
    image of 60 bytes, the callback finds the id, counts the 60 bytes and
    announces the entry that was removed as added; no loaded entry in the
    collection accounts for these bytes.  The volume path does the same. *)
Theorem completion_after_reinsertion_counts_bytes :
  (let w := after [putImageLoadObject 1 (Some "A") (loader 1);
                   removeImageLoadObject (Some "A");
                   putImageLoadObject 2 (Some "A") (loader 2)] in
   let (r, w') := imagePromiseFulfilled "A" 0%nat (imageOf (JsNumber 60)) w in
   Map_values (_imageCache w) = [1%nat] /\
   _cacheSize w = 0 /\
   r = Normal tt /\
   Map_values (_imageCache w') = [1%nat] /\
   _cacheSize w' = 60 /\
   loadedBytes w' = 0 /\
   last (trace w') = Some (TriggerEvent IMAGE_CACHE_IMAGE_ADDED (DetailImage 0))) /\
  (let w := after [putVolumeLoadObject 1 (Some "V") (loader 1);
                   removeVolumeLoadObject (Some "V");
                   putVolumeLoadObject 2 (Some "V") (loader 2)] in
   let (r, w') := volumePromiseFulfilled "V" 0%nat (volumeOf (JsNumber 60)) w in
   Map_values (_volumeCache w) = [1%nat] /\
   _cacheSize w = 0 /\
   r = Normal tt /\
   Map_values (_volumeCache w') = [1%nat] /\
   _cacheSize w' = 60 /\
   loadedBytes w' = 0 /\
   last (trace w') = Some (TriggerEvent IMAGE_CACHE_VOLUME_ADDED (DetailVolume 0))).
Proof. vm_compute. repeat split. Qed.

(** C7, as stated, fails: an image is put and its load is fulfilled with an
    artifact whose [sizeInBytes] is undefined.  The callback throws, and the
    entry is still in the collection under its id, marked loaded. *)
Lemma malformed_size_entry_not_discarded :
  let w := after [putImageLoadObject 1 (Some "A") (loader 1)] in
  let (r, w') := imagePromiseFulfilled "A" 0%nat (imageOf JsUndefined) w in
  r = Throw (Error "putImageLoadObject: image.sizeInBytes must not be undefined") /\
  Map_get (_imageCache w') "A" = Some 0%nat /\
  CachedImage.loaded <$> imageHeap w' !! 0%nat = Some true.
Proof. vm_compute. repeat split. Qed.

(** C7, amended.  When a load is fulfilled with an artifact whose
    [sizeInBytes] is undefined or is not a number, and the id is in the
    collection, the callback throws; the running total, the ceiling and the
    trace (so: no "added" event) are as before; both collections are as
    before, so the entry stays under its id; the one change is to the entry
    object of the load, which is marked loaded and given the artifact. *)
Theorem malformed_size_throws_and_keeps_entry :
  (forall (w : World) (imageId : string) (cachedImage : nat) (image : Image.t),
      is_Some (Map_get (_imageCache w) imageId) ->
      notNumeric (Image.sizeInBytes image) ->
      let (r, w') := imagePromiseFulfilled imageId cachedImage image w in
      (exists e, r = Throw e) /\
      _cacheSize w' = _cacheSize w /\
      _maxCacheSize w' = _maxCacheSize w /\
      trace w' = trace w /\
      _imageCache w' = _imageCache w /\
      _volumeCache w' = _volumeCache w /\
      volumeHeap w' = volumeHeap w /\
      imageHeap w' =
        alter (CachedImage.set_image (Some image)) cachedImage
          (alter (CachedImage.set_loaded true) cachedImage (imageHeap w))) /\
  (forall (w : World) (volumeId : string) (cachedVolume : nat) (volume : Volume.t),
      is_Some (Map_get (_volumeCache w) volumeId) ->
      notNumeric (Volume.sizeInBytes volume) ->
      let (r, w') := volumePromiseFulfilled volumeId cachedVolume volume w in
      (exists e, r = Throw e) /\
      _cacheSize w' = _cacheSize w /\
      _maxCacheSize w' = _maxCacheSize w /\
      trace w' = trace w /\
      _imageCache w' = _imageCache w /\
      _volumeCache w' = _volumeCache w /\
      imageHeap w' = imageHeap w /\
      volumeHeap w' =
        alter (CachedVolume.set_volume (Some volume)) cachedVolume
          (alter (CachedVolume.set_loaded true) cachedVolume (volumeHeap w))).
Proof.
  split.
  - intros w imageId cachedImage image [r0 Hin] Hsize.
    unfold imagePromiseFulfilled, imagePromiseFulfilledWith, bind, gets. simpl.
    rewrite Hin.
    destruct (Image.sizeInBytes image); simpl in *; try contradiction;
      (split; [eexists; reflexivity|repeat split]).
  - intros w volumeId cachedVolume volume [r0 Hin] Hsize.
    unfold volumePromiseFulfilled, volumePromiseFulfilledWith, bind, gets. simpl.
    rewrite Hin.
    destruct (Volume.sizeInBytes volume); simpl in *; try contradiction;
      (split; [eexists; reflexivity|repeat split]).
Qed.

Lemma malformed_size_throws_and_keeps_entry_witness :
  let w := after [putImageLoadObject 1 (Some "A") (loader 1);
                  putVolumeLoadObject 2 (Some "V") (loader 2)] in
  (is_Some (Map_get (_imageCache w) "A") /\
   notNumeric (Image.sizeInBytes (imageOf (JsString "60"))) /\
   _cacheSize (snd (imagePromiseFulfilled "A" 0%nat (imageOf (JsString "60")) w)) = 0 /\
   _imageCache (snd (imagePromiseFulfilled "A" 0%nat (imageOf (JsString "60")) w))
     = [("A", 0%nat)]) /\
  (is_Some (Map_get (_volumeCache w) "V") /\
   notNumeric (Volume.sizeInBytes (volumeOf JsUndefined)) /\
   _cacheSize (snd (volumePromiseFulfilled "V" 0%nat (volumeOf JsUndefined) w)) = 0 /\
   _volumeCache (snd (volumePromiseFulfilled "V" 0%nat (volumeOf JsUndefined) w))
     = [("V", 0%nat)]).
Proof.
  intros w.
  assert (Hi : is_Some (Map_get (_imageCache w) "A")) by (exists 0%nat; reflexivity).
  assert (Hv : is_Some (Map_get (_volumeCache w) "V")) by (exists 0%nat; reflexivity).
  split.
  - pose proof (proj1 malformed_size_throws_and_keeps_entry
                  w "A" 0%nat (imageOf (JsString "60")) Hi I) as H.
    destruct (imagePromiseFulfilled "A" 0%nat (imageOf (JsString "60")) w) as [r w'].
    destruct H as (_ & Hsize & _ & _ & Hmap & _).
    simpl. rewrite Hsize, Hmap. repeat split. exact Hi.
  - pose proof (proj2 malformed_size_throws_and_keeps_entry
                  w "V" 0%nat (volumeOf JsUndefined) Hv I) as H.
    destruct (volumePromiseFulfilled "V" 0%nat (volumeOf JsUndefined) w) as [r w'].
    destruct H as (_ & Hsize & _ & _ & _ & Hmap & _).
    simpl. rewrite Hsize, Hmap. repeat split. exact Hv.
Defined.

(** ** Removal, purge *)

Lemma _decacheImage_present (w : World) (imageId : string) (e : CachedImage.t) :
  imageAt w imageId = Some e ->
  _decacheImage imageId w =
    (Normal tt,
     set_imageCache (fun m => Map_delete m imageId)
       (set_trace (fun t => t ++ hookCalls (CachedImage.imageLoadObject e)) w)).
Proof.
  intros H. unfold _decacheImage, bind, gets. simpl. rewrite H.
  unfold hookCalls, when, emit, modify, ret. destruct w as [ic vc cs mx ih vh t].
  destruct (cancel _), (decache _); unfold set_imageCache, set_trace; simpl;
    rewrite <- ?app_assoc, ?app_nil_r; reflexivity.
Qed.

Lemma _decacheVolume_present (w : World) (volumeId : string) (e : CachedVolume.t) :
  volumeAt w volumeId = Some e ->
  _decacheVolume volumeId w =
    (Normal tt,
     set_volumeCache (fun m => Map_delete m volumeId)
       (set_trace (fun t => t ++ hookCalls (CachedVolume.volumeLoadObject e)) w)).
Proof.
  intros H. unfold _decacheVolume, bind, gets. simpl. rewrite H.
  unfold hookCalls, when, emit, modify, ret. destruct w as [ic vc cs mx ih vh t].
  destruct (cancel _), (decache _); unfold set_volumeCache, set_trace; simpl;
    rewrite <- ?app_assoc, ?app_nil_r; reflexivity.
Qed.

(** The first loop of [purgeCache]: it empties the image collection and
    changes nothing else but the trace. *)
Lemma purgeCache_image_loop (m : JsMap) :
  forall w : World,
    _imageCache w = m ->
    NoDup (Map_keys m) ->
    Forall (fun r => is_Some (imageHeap w !! r)) (Map_values m) ->
    exists t,
      forEach (Map_keys m) _decacheImage w =
        (Normal tt, set_imageCache (fun _ => []) (set_trace (fun _ => t) w)).
Proof.
  induction m as [|[k r] m IH]; intros w Hm Hkeys Hrefs.
  - exists (trace w). destruct w as [ic vc cs mx ih vh t]. simpl in *. subst ic. reflexivity.
  - simpl in Hkeys, Hrefs. inversion Hkeys as [|? ? Hnotin Hkeys']; subst.
    inversion Hrefs as [|? ? [e He] Hrefs']; subst.
    assert (Hat : imageAt w k = Some e).
    { unfold imageAt. rewrite Hm. simpl. rewrite String.eqb_refl. exact He. }
    simpl. unfold bind at 1. rewrite (_decacheImage_present _ _ _ Hat).
    match goal with |- context [forEach _ _ ?w1] => set (w1' := w1) end.
    destruct (IH w1') as [t Ht].
    + subst w1'. simpl. rewrite Hm. apply Map_delete_head.
      rewrite <- list_elem_of_In. exact Hnotin.
    + exact Hkeys'.
    + subst w1'. simpl. exact Hrefs'.
    + exists t. rewrite Ht. subst w1'.
      destruct w as [ic vc cs mx ih vh t0]. reflexivity.
Qed.

Lemma purgeCache_volume_loop (m : JsMap) :
  forall w : World,
    _volumeCache w = m ->
    NoDup (Map_keys m) ->
    Forall (fun r => is_Some (volumeHeap w !! r)) (Map_values m) ->
    exists t,
      forEach (Map_keys m) _decacheVolume w =
        (Normal tt, set_volumeCache (fun _ => []) (set_trace (fun _ => t) w)).
Proof.
  induction m as [|[k r] m IH]; intros w Hm Hkeys Hrefs.
  - exists (trace w). destruct w as [ic vc cs mx ih vh t]. simpl in *. subst vc. reflexivity.
  - simpl in Hkeys, Hrefs. inversion Hkeys as [|? ? Hnotin Hkeys']; subst.
    inversion Hrefs as [|? ? [e He] Hrefs']; subst.
    assert (Hat : volumeAt w k = Some e).
    { unfold volumeAt. rewrite Hm. simpl. rewrite String.eqb_refl. exact He. }
    simpl. unfold bind at 1. rewrite (_decacheVolume_present _ _ _ Hat).
    match goal with |- context [forEach _ _ ?w1] => set (w1' := w1) end.
    destruct (IH w1') as [t Ht].
    + subst w1'. simpl. rewrite Hm. apply Map_delete_head.
      rewrite <- list_elem_of_In. exact Hnotin.
    + exact Hkeys'.
    + subst w1'. simpl. exact Hrefs'.
    + exists t. rewrite Ht. subst w1'.
      destruct w as [ic vc cs mx ih vh t0]. reflexivity.
Qed.

(** In every well-formed world [purgeCache] completes normally and leaves both
    collections empty.  The running total, the ceiling and the entry objects
    are what they were: the total is not brought down. *)
Lemma purgeCache_spec (w : World) :
  wellFormed w ->
  exists t,
    purgeCache w =
      (Normal tt,
       {| _imageCache := []; _volumeCache := [];
          _cacheSize := _cacheSize w; _maxCacheSize := _maxCacheSize w;
          imageHeap := imageHeap w; volumeHeap := volumeHeap w; trace := t |}).
Proof.
  intros [Hik Hvk Hir Hvr]. unfold purgeCache, bind, gets.
  destruct (purgeCache_image_loop (_imageCache w) w eq_refl Hik Hir) as [t1 H1].
  rewrite H1.
  match goal with |- context [forEach _ _ ?w1] => set (w1' := w1) end.
  destruct (purgeCache_volume_loop (_volumeCache w) w1') as [t2 H2].
  - subst w1'. reflexivity.
  - exact Hvk.
  - subst w1'. simpl. exact Hvr.
  - exists t2. subst w1'. simpl in *. rewrite H2. reflexivity.
Qed.

(** C2, on the code.  An image is put and its load is fulfilled with 60
    bytes, a volume is put and its load is fulfilled with 40 bytes; then
    [purgeCache] runs.  It completes normally and both collections are empty,
    but [getCacheSize] still answers 100. *)
Theorem purgeCache_keeps_running_total :
  let (rs, w) := calls [putImageLoadObject 1 (Some "A") (loader 1);
                        imagePromiseFulfilled "A" 0%nat (imageOf (JsNumber 60));
                        putVolumeLoadObject 2 (Some "V") (loader 2);
                        volumePromiseFulfilled "V" 0%nat (volumeOf (JsNumber 40));
                        purgeCache] new_Cache in
  rs = [Normal tt; Normal tt; Normal tt; Normal tt; Normal tt] /\
  _imageCache w = [] /\
  _volumeCache w = [] /\
  getCacheSize w = (Normal 100, w).
Proof. vm_compute. repeat split. Qed.

(** C1, on the code.  After the same two loads the running total and the
    bytes of the loaded entries are both 100.  After [purgeCache] the running
    total is 100 and the bytes of the loaded entries of both collections sum
    to 0. *)
Theorem purgeCache_breaks_byte_accounting :
  let w := after [putImageLoadObject 1 (Some "A") (loader 1);
                  imagePromiseFulfilled "A" 0%nat (imageOf (JsNumber 60));
                  putVolumeLoadObject 2 (Some "V") (loader 2);
                  volumePromiseFulfilled "V" 0%nat (volumeOf (JsNumber 40))] in
  accounted w /\
  _cacheSize w = 100 /\
  fst (purgeCache w) = Normal tt /\
  _cacheSize (snd (purgeCache w)) = 100 /\
  loadedBytes (snd (purgeCache w)) = 0 /\
  ~ accounted (snd (purgeCache w)).
Proof. vm_compute. repeat split. discriminate. Qed.

(** ** The sweep after a completion *)

(** The sweep leaves the world as it found it: it returns when the total is
    within the ceiling and throws when it is not. *)
Lemma _purgeCacheIfNecessary_spec (w : World) :
  _purgeCacheIfNecessary w =
    (if _cacheSize w <=? _maxCacheSize w
     then Normal tt
     else Throw (TypeError "cachedImages.sort is not a function"),
     w).
Proof.
  unfold _purgeCacheIfNecessary, bind, getCacheSize, getMaxCacheSize, gets. simpl.
  destruct (_cacheSize w <=? _maxCacheSize w); reflexivity.
Qed.

(** C4, on the code.  Ceiling 100; image "A" is put and loads 60 bytes, then
    image "B" is put and loads 60 bytes.  The sweep that follows the second
    completion throws a TypeError; "A" and "B" are both still cached and the
    total, 120, is above the ceiling.  The same under the default ceiling with
    two images of 600000000 bytes. *)
Theorem sweep_over_ceiling_evicts_nothing :
  (let (rs, w) := calls [setMaxCacheSize 100;
                         putImageLoadObject 1 (Some "A") (loader 1);
                         imagePromiseFulfilled "A" 0%nat (imageOf (JsNumber 60));
                         putImageLoadObject 2 (Some "B") (loader 2);
                         imagePromiseFulfilled "B" 1%nat (imageOf (JsNumber 60))]
                        new_Cache in
   last rs = Some (Throw (TypeError "cachedImages.sort is not a function")) /\
   Map_keys (_imageCache w) = ["A"; "B"] /\
   _cacheSize w = 120 /\
   _maxCacheSize w = 100) /\
  (let (rs, w) := calls [putImageLoadObject 1 (Some "A") (loader 1);
                         imagePromiseFulfilled "A" 0%nat (imageOf (JsNumber 600000000));
                         putImageLoadObject 2 (Some "B") (loader 2);
                         imagePromiseFulfilled "B" 1%nat (imageOf (JsNumber 600000000))]
                        new_Cache in
   rs = [Normal tt; Normal tt; Normal tt;
         Throw (TypeError "cachedImages.sort is not a function")] /\
   Map_keys (_imageCache w) = ["A"; "B"] /\
   _cacheSize w = 1200000000 /\
   _maxCacheSize w = 1073741824).
Proof. vm_compute. repeat split. Qed.

(** *** The same sweep on an array *)

Lemma removeImageLoadObject_absent (w : World) (imageId : string) :
  Map_get (_imageCache w) imageId = None ->
  removeImageLoadObject (Some imageId) w =
    (Throw (Error "removeImageLoadObject: imageId was not present in imageCache"), w).
Proof.
  intros H. unfold removeImageLoadObject, bind, gets. simpl. rewrite H. reflexivity.
Qed.

(** A removal that completes normally deletes the id and leaves the entry
    objects alone; a removal never runs out of fuel. *)
Lemma removeImageLoadObject_outcome (w : World) (imageId : string) :
  match removeImageLoadObject (Some imageId) w with
  | (Normal _, w') =>
      _imageCache w' = Map_delete (_imageCache w) imageId /\
      imageHeap w' = imageHeap w
  | (Throw _, _) => True
  | (OutOfFuel, _) => False
  end.
Proof.
  unfold removeImageLoadObject, bind, gets. simpl.
  destruct (Map_get (_imageCache w) imageId) as [r|] eqn:Hget; [|exact I].
  unfold _incrementCacheSize, triggerEvent, emit, modify.
  destruct (imageHeap w !! r) as [e|] eqn:Hheap.
  - rewrite (_decacheImage_present _ _ e).
    + split; reflexivity.
    + unfold imageAt. simpl. rewrite Hget. exact Hheap.
  - unfold _decacheImage, bind, gets, imageAt. simpl. rewrite Hget. simpl.
    rewrite Hheap. exact I.
Qed.

Lemma array_evict_S (fuel : nat) (cachedImages : list nat) (w : World) :
  ArrayReading.evict (S fuel) cachedImages w =
    if _cacheSize w >? _maxCacheSize w then
      match last cachedImages ≫= (fun r => imageHeap w !! r) with
      | None =>
          (Throw (TypeError "Cannot read properties of undefined (reading 'imageId')"), w)
      | Some lastCachedImage =>
          let imageId := CachedImage.imageId lastCachedImage in
          match removeImageLoadObject (Some imageId) w with
          | (Normal _, w1) =>
              ArrayReading.evict fuel cachedImages
                (set_trace
                   (fun t => t ++ [TriggerEvent IMAGE_CACHE_IMAGE_REMOVED
                                     (DetailImageId imageId)]) w1)
          | (Throw e, w1) => (Throw e, w1)
          | (OutOfFuel, w1) => (OutOfFuel, w1)
          end
      end
    else (Normal tt, w).
Proof.
  cbn [ArrayReading.evict]. unfold bind, getCacheSize, getMaxCacheSize, gets.
  cbn beta iota.
  destruct (_cacheSize w >? _maxCacheSize w); [|reflexivity].
  cbn [id].
  destruct (last cachedImages ≫= (fun r => imageHeap w !! r)); [|reflexivity].
  cbn zeta.
  destruct (removeImageLoadObject (Some (CachedImage.imageId t)) w) as [[u|e|] w1];
    reflexivity.
Qed.

(** The loop never needs a third turn: the second turn reads the entry that
    the first turn removed, and the removal of an absent id throws. *)
Lemma array_evict_two_turns (n : nat) (cachedImages : list nat) (w : World) :
  fst (ArrayReading.evict (S (S n)) cachedImages w) <> OutOfFuel.
Proof.
  rewrite array_evict_S.
  destruct (_cacheSize w >? _maxCacheSize w); [|discriminate].
  destruct (last cachedImages ≫= (fun r => imageHeap w !! r)) as [e|] eqn:Hlast;
    [|discriminate].
  cbn zeta.
  pose proof (removeImageLoadObject_outcome w (CachedImage.imageId e)) as Hout.
  destruct (removeImageLoadObject (Some (CachedImage.imageId e)) w) as [[u|ex|] w1];
    [|discriminate|contradiction].
  destruct Hout as [Hmap Hheap].
  rewrite array_evict_S.
  cbn [_cacheSize _maxCacheSize imageHeap set_trace].
  destruct (_cacheSize w1 >? _maxCacheSize w1); [|discriminate].
  rewrite Hheap, Hlast. cbn zeta.
  rewrite removeImageLoadObject_absent; [discriminate|].
  cbn [_imageCache set_trace]. rewrite Hmap. apply Map_get_delete_eq.
Qed.

(** On the scenario of C4 the array sweep removes "A", the older image. *)
Lemma array_sweep_evicts_older_image :
  let (rs, w) := calls [setMaxCacheSize 100;
                        putImageLoadObject 1 (Some "A") (loader 1);
                        ArrayReading.imagePromiseFulfilled 2 "A" 0%nat (imageOf (JsNumber 60));
                        putImageLoadObject 2 (Some "B") (loader 2);
                        ArrayReading.imagePromiseFulfilled 2 "B" 1%nat (imageOf (JsNumber 60))]
                       new_Cache in
  last rs = Some (Normal tt) /\
  Map_keys (_imageCache w) = ["B"] /\
  _cacheSize w = 60.
Proof. vm_compute. repeat split. Qed.

(** When one removal is not enough, the array sweep stops on an Error with the
    total still above the ceiling: after "A" (60), "B" (60) and "C" (120)
    under a ceiling of 100, the completion of "C" removes "B", reads "B"
    again, and throws; "C" stays and the total is 120. *)
Lemma array_sweep_second_removal_throws :
  let (rs, w) := calls [setMaxCacheSize 100;
                        putImageLoadObject 1 (Some "A") (loader 1);
                        ArrayReading.imagePromiseFulfilled 2 "A" 0%nat (imageOf (JsNumber 60));
                        putImageLoadObject 2 (Some "B") (loader 2);
                        ArrayReading.imagePromiseFulfilled 2 "B" 1%nat (imageOf (JsNumber 60));
                        putImageLoadObject 3 (Some "C") (loader 3);
                        ArrayReading.imagePromiseFulfilled 2 "C" 2%nat (imageOf (JsNumber 120))]
                       new_Cache in
  last rs =
    Some (Throw (Error "removeImageLoadObject: imageId was not present in imageCache")) /\
  Map_keys (_imageCache w) = ["C"] /\
  _cacheSize w = 120 /\
  _maxCacheSize w = 100.
Proof. vm_compute. repeat split. Qed.

(** The array holds every image entry, loaded or not: with "U" put first and
    still loading, the completion of "A" with 120 bytes under a ceiling of 100
    removes "U", which frees nothing, and then throws. *)
Lemma array_sweep_removes_unloaded_image :
  let (rs, w) := calls [setMaxCacheSize 100;
                        putImageLoadObject 1 (Some "U") (loader 1);
                        putImageLoadObject 2 (Some "A") (loader 2);
                        ArrayReading.imagePromiseFulfilled 2 "A" 1%nat (imageOf (JsNumber 120))]
                       new_Cache in
  last rs =
    Some (Throw (Error "removeImageLoadObject: imageId was not present in imageCache")) /\
  Map_keys (_imageCache w) = ["A"] /\
  _cacheSize w = 120.
Proof. vm_compute. repeat split. Qed.

(** ** Byte accounting

    The operations that do keep the running total equal to the bytes of the
    loaded entries: an explicit removal, the completion of a load whose entry
    is the one cached under its id, and the put of an id that is not cached. *)

Lemma sumZ_app (l1 l2 : list Z) : sumZ (l1 ++ l2) = sumZ l1 + sumZ l2.
Proof. induction l1 as [|x l1 IH]; simpl; [reflexivity|]. rewrite IH. lia. Qed.

Lemma Map_get_Some_values (m : JsMap) (k : string) (r : nat) :
  Map_get m k = Some r -> In r (Map_values m).
Proof.
  induction m as [|[k' r'] m IH]; simpl; [discriminate|].
  destruct (String.eqb k' k); [intros [= ->]; left; reflexivity|].
  intros H. right. exact (IH H).
Qed.

Lemma Map_values_set_absent (m : JsMap) (k : string) (r : nat) :
  Map_get m k = None -> Map_values (Map_set m k r) = Map_values m ++ [r].
Proof.
  induction m as [|[k' r'] m IH]; simpl; [reflexivity|].
  destruct (String.eqb k' k); [discriminate|].
  intros H. simpl. f_equal. exact (IH H).
Qed.

Lemma sumZ_Map_delete (f : nat -> Z) (m : JsMap) (k : string) (r : nat) :
  NoDup (Map_keys m) ->
  Map_get m k = Some r ->
  sumZ (map f (Map_values m)) = f r + sumZ (map f (Map_values (Map_delete m k))).
Proof.
  induction m as [|[k' r'] m IH]; simpl; intros Hnd Hget; [discriminate|].
  inversion Hnd as [|? ? Hnotin Hnd']; subst.
  destruct (String.eqb k' k) eqn:E.
  - apply String.eqb_eq in E. subst k'. injection Hget as ->.
    rewrite Map_delete_absent; [reflexivity|].
    rewrite <- list_elem_of_In. exact Hnotin.
  - simpl. rewrite (IH Hnd' Hget). lia.
Qed.

Lemma imageBytes_same (h h' : list CachedImage.t) (x : nat) :
  h' !! x = h !! x -> imageBytes h' x = imageBytes h x.
Proof. intros H. unfold imageBytes. rewrite H. reflexivity. Qed.

(** Two heaps that differ in the object [r] alone. *)
Lemma sumZ_imageBytes_elsewhere (h h' : list CachedImage.t) (r : nat) (l : list nat) :
  (forall x, x <> r -> h' !! x = h !! x) ->
  ~ In r l ->
  sumZ (map (imageBytes h') l) = sumZ (map (imageBytes h) l).
Proof.
  intros Hsame. induction l as [|x l IH]; simpl; intros H; [reflexivity|].
  rewrite IH by tauto.
  rewrite (imageBytes_same h h' x); [reflexivity|].
  apply Hsame. intros ->. apply H. left. reflexivity.
Qed.

Lemma sumZ_imageBytes_at (h h' : list CachedImage.t) (r : nat) (l : list nat) :
  (forall x, x <> r -> h' !! x = h !! x) ->
  NoDup l -> In r l ->
  sumZ (map (imageBytes h') l) =
    sumZ (map (imageBytes h) l) + (imageBytes h' r - imageBytes h r).
Proof.
  intros Hsame. induction l as [|x l IH]; simpl; intros Hnd Hin; [contradiction|].
  inversion Hnd as [|? ? Hnotin Hnd']; subst.
  rewrite list_elem_of_In in Hnotin.
  destruct (Nat.eq_dec x r) as [->|Hne].
  - rewrite (sumZ_imageBytes_elsewhere h h' r l Hsame Hnotin). lia.
  - rewrite IH; [|exact Hnd'|destruct Hin; [contradiction|assumption]].
    rewrite (imageBytes_same h h' x (Hsame x Hne)). lia.
Qed.

(** An explicit removal of a cached image: the total goes down by the size of
    the entry, the removal event is fired with the entry, then [cancel] and
    [decache] are called in this order, and the id is deleted. *)
Lemma removeImageLoadObject_present (w : World) (imageId : string) (r : nat)
    (e : CachedImage.t) :
  Map_get (_imageCache w) imageId = Some r ->
  imageHeap w !! r = Some e ->
  removeImageLoadObject (Some imageId) w =
    (Normal tt,
     {| _imageCache := Map_delete (_imageCache w) imageId;
        _volumeCache := _volumeCache w;
        _cacheSize := _cacheSize w + - CachedImage.sizeInBytes e;
        _maxCacheSize := _maxCacheSize w;
        imageHeap := imageHeap w;
        volumeHeap := volumeHeap w;
        trace := (trace w ++ [TriggerEvent IMAGE_CACHE_IMAGE_REMOVED (DetailImage r)])
                 ++ hookCalls (CachedImage.imageLoadObject e) |}).
Proof.
  intros Hget He. unfold removeImageLoadObject, bind, gets. simpl.
  rewrite Hget, He.
  unfold _incrementCacheSize, triggerEvent, emit, modify.
  rewrite (_decacheImage_present _ _ e).
  - reflexivity.
  - unfold imageAt. simpl. rewrite Hget. exact He.
Qed.

Lemma removeImageLoadObject_accounted (w : World) (imageId : string) (r : nat)
    (e : CachedImage.t) :
  accounted w ->
  NoDup (Map_keys (_imageCache w)) ->
  Map_get (_imageCache w) imageId = Some r ->
  imageHeap w !! r = Some e ->
  (CachedImage.loaded e = false -> CachedImage.sizeInBytes e = 0) ->
  accounted (snd (removeImageLoadObject (Some imageId) w)).
Proof.
  intros Hacc Hnd Hget He Hzero.
  rewrite (removeImageLoadObject_present _ _ _ _ Hget He).
  unfold accounted, loadedBytes in *. simpl.
  rewrite (sumZ_Map_delete _ _ _ _ Hnd Hget) in Hacc.
  assert (Hb : imageBytes (imageHeap w) r = CachedImage.sizeInBytes e).
  { unfold imageBytes. rewrite He. unfold entryBytes.
    destruct (CachedImage.loaded e); [reflexivity|]. symmetry. apply Hzero. reflexivity. }
  lia.
Qed.

(** The completion of a load with a numeric size, when the id is cached: the
    entry object of the load is marked loaded and given the artifact, its size
    and its shared key, the size is added to the total and the "added" event
    is fired with the entry; the sweep then decides how the call completes. *)
Lemma imagePromiseFulfilled_number (w : World) (imageId : string)
    (cachedImage : nat) (image : Image.t) (sizeInBytes : Z) :
  is_Some (Map_get (_imageCache w) imageId) ->
  Image.sizeInBytes image = JsNumber sizeInBytes ->
  imagePromiseFulfilled imageId cachedImage image w =
    (if _cacheSize w + sizeInBytes <=? _maxCacheSize w
     then Normal tt
     else Throw (TypeError "cachedImages.sort is not a function"),
     {| _imageCache := _imageCache w;
        _volumeCache := _volumeCache w;
        _cacheSize := _cacheSize w + sizeInBytes;
        _maxCacheSize := _maxCacheSize w;
        imageHeap :=
          alter (CachedImage.set_sharedCacheKey (Image.sharedCacheKey image)) cachedImage
            (alter (CachedImage.set_sizeInBytes sizeInBytes) cachedImage
               (alter (CachedImage.set_image (Some image)) cachedImage
                  (alter (CachedImage.set_loaded true) cachedImage (imageHeap w))));
        volumeHeap := volumeHeap w;
        trace := trace w ++ [TriggerEvent IMAGE_CACHE_IMAGE_ADDED (DetailImage cachedImage)] |}).
Proof.
  intros [r0 Hget] Hsize.
  unfold imagePromiseFulfilled, imagePromiseFulfilledWith, bind, gets. simpl.
  rewrite Hget, Hsize.
  unfold assignImage, _incrementCacheSize, triggerEvent, emit, modify. simpl.
  rewrite _purgeCacheIfNecessary_spec. reflexivity.
Qed.

Lemma imagePromiseFulfilled_accounted (w : World) (imageId : string) (r : nat)
    (e : CachedImage.t) (image : Image.t) (sizeInBytes : Z) :
  accounted w ->
  NoDup (Map_values (_imageCache w)) ->
  Map_get (_imageCache w) imageId = Some r ->
  imageHeap w !! r = Some e ->
  CachedImage.loaded e = false ->
  Image.sizeInBytes image = JsNumber sizeInBytes ->
  accounted (snd (imagePromiseFulfilled imageId r image w)).
Proof.
  intros Hacc Hnd Hget He Hunloaded Hsize.
  rewrite (imagePromiseFulfilled_number _ _ _ _ _ (ex_intro _ r Hget) Hsize).
  unfold accounted, loadedBytes in *. simpl.
  match goal with |- context [map (imageBytes ?h')] => set (heap' := h') end.
  assert (Hsame : forall x, x <> r -> heap' !! x = imageHeap w !! x).
  { intros x Hx. subst heap'. rewrite !list_lookup_alter_ne by congruence. reflexivity. }
  rewrite (sumZ_imageBytes_at _ _ r _ Hsame Hnd (Map_get_Some_values _ _ _ Hget)).
  assert (Hnew : imageBytes heap' r = sizeInBytes).
  { unfold imageBytes. subst heap'. rewrite !list_lookup_alter_eq, He. reflexivity. }
  assert (Hold : imageBytes (imageHeap w) r = 0).
  { unfold imageBytes. rewrite He, Hunloaded. reflexivity. }
  lia.
Qed.

Lemma putImageLoadObject_accounted (w : World) (now : Z) (imageId : string)
    (imageLoadObject : ImageLoadObject) :
  accounted w ->
  Forall (fun r => is_Some (imageHeap w !! r)) (Map_values (_imageCache w)) ->
  Map_get (_imageCache w) imageId = None ->
  accounted (snd (putImageLoadObject now (Some imageId) imageLoadObject w)).
Proof.
  intros Hacc Hrefs Habsent. unfold putImageLoadObject.
  destruct (promise imageLoadObject); [|exact Hacc].
  unfold bind, gets, Map_hasOwnProperty, newImage, modify.
  assert (Hold : forall e0,
             map (imageBytes (imageHeap w ++ [e0])) (Map_values (_imageCache w))
             = map (imageBytes (imageHeap w)) (Map_values (_imageCache w))).
  { intros e0. apply map_ext_in. intros r Hin.
    rewrite Forall_forall in Hrefs. apply list_elem_of_In in Hin.
    specialize (Hrefs r Hin). apply lookup_lt_is_Some in Hrefs.
    unfold imageBytes. rewrite lookup_app_l by exact Hrefs. reflexivity. }
  destruct (cancelFn imageLoadObject); try exact Hacc;
    unfold accounted, loadedBytes in *; simpl;
    rewrite (Map_values_set_absent _ _ _ Habsent), map_app, sumZ_app, Hold; simpl;
    unfold imageBytes at 2; rewrite list_lookup_middle by reflexivity; simpl; lia.
Qed.

(** The general lemmas above speak of worlds that exist: the world after two
    puts and a completion is well formed and accounted, and stays accounted
    through the completion of the second load and the removal of the first
    image. *)
Example wellFormed_after_puts :
  wellFormed (after [putImageLoadObject 1 (Some "A") (loader 1);
                     imagePromiseFulfilled "A" 0%nat (imageOf (JsNumber 60));
                     putVolumeLoadObject 2 (Some "V") (loader 2)]).
Proof.
  split; vm_compute.
  - apply NoDup_singleton.
  - apply NoDup_singleton.
  - repeat constructor. eexists. reflexivity.
  - repeat constructor. eexists. reflexivity.
Qed.

Example accounted_through_completion_and_removal :
  let w := after [putImageLoadObject 1 (Some "A") (loader 1);
                  imagePromiseFulfilled "A" 0%nat (imageOf (JsNumber 60));
                  putImageLoadObject 2 (Some "B") (loader 2)] in
  accounted (snd (imagePromiseFulfilled "B" 1%nat (imageOf (JsNumber 40)) w)) /\
  accounted (snd (removeImageLoadObject (Some "A") w)).
Proof.
  intros w.
  assert (Hacc : accounted w) by reflexivity.
  assert (Hkeys : NoDup (Map_keys (_imageCache w))).
  { vm_compute. apply NoDup_cons. split; [|apply NoDup_singleton].
    intros H. apply list_elem_of_In in H. destruct H as [H|[]]. discriminate H. }
  assert (Hvalues : NoDup (Map_values (_imageCache w))).
  { vm_compute. apply NoDup_cons. split; [|apply NoDup_singleton].
    intros H. apply list_elem_of_In in H. destruct H as [H|[]]. discriminate H. }
  split.
  - eapply (imagePromiseFulfilled_accounted w "B" 1%nat _ _ 40 Hacc Hvalues);
      reflexivity.
  - eapply (removeImageLoadObject_accounted w "A" 0%nat _ Hacc Hkeys);
      [reflexivity|reflexivity|discriminate].
Qed.

(** * Properties of every call *)

(** ** A property that the steps keep is kept by the computation *)

Lemma keeps_ret {A} (I : World -> Prop) (a : A) : keeps I (ret a).
Proof. intros w H. exact H. Qed.

Lemma keeps_throw {A} (I : World -> Prop) (e : Exn) : keeps I (throw e : M A).
Proof. intros w H. exact H. Qed.

Lemma keeps_gets {A} (I : World -> Prop) (f : World -> A) : keeps I (gets f).
Proof. intros w H. exact H. Qed.

Lemma keeps_modify (I : World -> Prop) (f : World -> World) :
  (forall w, I w -> I (f w)) -> keeps I (modify f).
Proof. intros Hf w H. apply Hf. exact H. Qed.

Lemma keeps_bind {A B} (I : World -> Prop) (c : M A) (k : A -> M B) :
  keeps I c -> (forall a, keeps I (k a)) -> keeps I (bind c k).
Proof.
  intros Hc Hk w Hw. unfold bind. specialize (Hc w Hw).
  destruct (c w) as [[a|e|] w']; simpl in *; [apply Hk| |]; assumption.
Qed.

Lemma keeps_when (I : World -> Prop) (b : bool) (c : M unit) :
  keeps I c -> keeps I (when b c).
Proof. intros Hc. destruct b; [exact Hc|apply keeps_ret]. Qed.

Lemma keeps_forEach {A} (I : World -> Prop) (l : list A) (body : A -> M unit) :
  (forall x, keeps I (body x)) -> keeps I (forEach l body).
Proof.
  intros Hbody. induction l as [|x l IH]; simpl; [apply keeps_ret|].
  apply keeps_bind; [apply Hbody|intros _; exact IH].
Qed.

(** One step through the text of a method; [leaf] settles the assignments. *)
Ltac keeps_step leaf :=
  first
    [ leaf
    | apply keeps_ret
    | apply keeps_throw
    | apply keeps_gets
    | apply keeps_when
    | apply keeps_forEach; intros ?
    | apply keeps_bind; [|intros ?]
    | match goal with
      | |- keeps _ (match ?x with _ => _ end) => destruct x
      end
    | progress cbv zeta
    | progress unfold getCacheSize, getMaxCacheSize, _incrementCacheSize,
        triggerEvent, console_warn, emit, assignImage, assignVolume ].

Ltac keeps_all leaf := repeat keeps_step leaf.

(** ** The maps under deletion and assignment *)

Lemma Map_delete_sublist {B} (f : string * nat -> B) (m : JsMap) (k : string) :
  sublist (map f (Map_delete m k)) (map f m).
Proof.
  induction m as [|[k' r'] m IH]; simpl; [constructor|].
  destruct (String.eqb k' k); simpl; [apply sublist_cons|apply sublist_skip]; exact IH.
Qed.

Lemma Map_delete_Forall (P : string * nat -> Prop) (m : JsMap) (k : string) :
  Forall P m -> Forall P (Map_delete m k).
Proof.
  induction 1 as [|[k' r'] m Hx Hm IH]; simpl; [constructor|].
  destruct (String.eqb k' k); [exact IH|constructor; assumption].
Qed.

Lemma Map_keys_set (m : JsMap) (k : string) (r : nat) :
  Map_keys (Map_set m k r) =
    match Map_get m k with
    | Some _ => Map_keys m
    | None => Map_keys m ++ [k]
    end.
Proof.
  induction m as [|[k' r'] m IH]; simpl; [reflexivity|].
  destruct (String.eqb k' k) eqn:E; simpl.
  - apply String.eqb_eq in E. subst k'. reflexivity.
  - fold (Map_keys (Map_set m k r)). rewrite IH.
    destruct (Map_get m k); reflexivity.
Qed.

Lemma Map_set_NoDup_keys (m : JsMap) (k : string) (r : nat) :
  NoDup (Map_keys m) -> NoDup (Map_keys (Map_set m k r)).
Proof.
  intros H. rewrite Map_keys_set.
  destruct (Map_get m k) eqn:E; [exact H|].
  apply NoDup_app. split; [exact H|]. split; [|apply NoDup_singleton].
  intros x Hx Hk. apply list_elem_of_singleton in Hk. subst x.
  apply Map_get_None_keys in E. apply E. apply list_elem_of_In. exact Hx.
Qed.

(** The values after a [set]: a sublist of the old values, with the new
    reference in the place of the one it replaces or at the end. *)
Lemma Map_set_values_In (m : JsMap) (k : string) (r x : nat) :
  In x (Map_values (Map_set m k r)) -> x = r \/ In x (Map_values m).
Proof.
  induction m as [|[k' r'] m IH]; simpl.
  - intros [H|[]]. left. symmetry. exact H.
  - destruct (String.eqb k' k); simpl.
    + intros [H|H]; [left; symmetry; exact H|right; right; exact H].
    + intros [H|H]; [right; left; exact H|].
      destruct (IH H) as [H'|H']; [left; exact H'|right; right; exact H'].
Qed.

Lemma Map_set_NoDup_values (m : JsMap) (k : string) (r : nat) :
  NoDup (Map_values m) -> ~ In r (Map_values m) -> NoDup (Map_values (Map_set m k r)).
Proof.
  induction m as [|[k' r'] m IH]; simpl; intros Hnd Hfresh.
  - apply NoDup_singleton.
  - apply NoDup_cons in Hnd. destruct Hnd as [Hr' Hnd].
    destruct (String.eqb k' k); simpl.
    + apply NoDup_cons. split; [|exact Hnd].
      rewrite list_elem_of_In. tauto.
    + apply NoDup_cons. split.
      * rewrite list_elem_of_In. intros H.
        destruct (Map_set_values_In _ _ _ _ H) as [->|H'].
        -- apply Hfresh. left. reflexivity.
        -- apply Hr'. apply list_elem_of_In. exact H'.
      * apply IH; [exact Hnd|tauto].
Qed.

Lemma Map_set_Forall (P : string * nat -> Prop) (m : JsMap) (k : string) (r : nat) :
  Forall P m -> P (k, r) -> Forall P (Map_set m k r).
Proof.
  induction 1 as [|[k' r'] m Hx Hm IH]; simpl; intros Hnew.
  - constructor; [exact Hnew|constructor].
  - destruct (String.eqb k' k); constructor; auto.
Qed.

Lemma alter_alter {A} (f g : A -> A) (i : nat) (l : list A) :
  alter f i (alter g i l) = alter (fun x => f (g x)) i l.
Proof.
  revert i. induction l as [|x l IH]; intros [|i]; simpl; try reflexivity.
  f_equal. apply IH.
Qed.

(** ** The steps that keep the state consistent *)

Lemma consistent_frame (w w' : World) :
  _imageCache w' = _imageCache w ->
  _volumeCache w' = _volumeCache w ->
  imageHeap w' = imageHeap w ->
  volumeHeap w' = volumeHeap w ->
  consistent w -> consistent w'.
Proof.
  intros Hic Hvc Hih Hvh [H1 H2 H3 H4 H5 H6 H7 H8].
  split; rewrite ?Hic, ?Hvc, ?Hih, ?Hvh; assumption.
Qed.

Lemma consistent_set_trace (w : World) (f : list Effect -> list Effect) :
  consistent w -> consistent (set_trace f w).
Proof. apply consistent_frame; reflexivity. Qed.

Lemma consistent_set_cacheSize (w : World) (f : Z -> Z) :
  consistent w -> consistent (set_cacheSize f w).
Proof. apply consistent_frame; reflexivity. Qed.

Lemma consistent_delete_image (w : World) (k : string) :
  consistent w -> consistent (set_imageCache (fun m => Map_delete m k) w).
Proof.
  intros [H1 H2 H3 H4 H5 H6 H7 H8]. split; simpl; try assumption.
  - exact (sublist_NoDup _ _ H1 (Map_delete_sublist fst _ k)).
  - exact (sublist_NoDup _ _ H3 (Map_delete_sublist snd _ k)).
  - apply Map_delete_Forall. exact H5.
Qed.

Lemma consistent_delete_volume (w : World) (k : string) :
  consistent w -> consistent (set_volumeCache (fun m => Map_delete m k) w).
Proof.
  intros [H1 H2 H3 H4 H5 H6 H7 H8]. split; simpl; try assumption.
  - exact (sublist_NoDup _ _ H2 (Map_delete_sublist fst _ k)).
  - exact (sublist_NoDup _ _ H4 (Map_delete_sublist snd _ k)).
  - apply Map_delete_Forall. exact H6.
Qed.

Lemma imageKeyed_alter (f : CachedImage.t -> CachedImage.t) (r : nat)
    (h : list CachedImage.t) (kr : string * nat) :
  (forall e, CachedImage.imageId (f e) = CachedImage.imageId e) ->
  imageKeyed h kr -> imageKeyed (alter f r h) kr.
Proof.
  intros Hf. unfold imageKeyed. rewrite list_lookup_alter.
  destruct (decide (r = snd kr)) as [->|Hne]; [|tauto].
  destruct (h !! snd kr) as [e|]; simpl; [|tauto]. rewrite Hf. tauto.
Qed.

Lemma volumeKeyed_alter (f : CachedVolume.t -> CachedVolume.t) (r : nat)
    (h : list CachedVolume.t) (kr : string * nat) :
  (forall e, CachedVolume.volumeId (f e) = CachedVolume.volumeId e) ->
  volumeKeyed h kr -> volumeKeyed (alter f r h) kr.
Proof.
  intros Hf. unfold volumeKeyed. rewrite list_lookup_alter.
  destruct (decide (r = snd kr)) as [->|Hne]; [|tauto].
  destruct (h !! snd kr) as [e|]; simpl; [|tauto]. rewrite Hf. tauto.
Qed.

Lemma consistent_alter_image (w : World) (f : CachedImage.t -> CachedImage.t) (r : nat) :
  (forall e, CachedImage.imageId (f e) = CachedImage.imageId e) ->
  (forall e, imageHeap w !! r = Some e -> imageSizeOk e -> imageSizeOk (f e)) ->
  consistent w -> consistent (set_imageHeap (alter f r) w).
Proof.
  intros Hid Hsize [H1 H2 H3 H4 H5 H6 H7 H8]. split; simpl; try assumption.
  - eapply Forall_impl; [exact H5|]. intros kr. apply imageKeyed_alter. exact Hid.
  - apply Forall_alter; assumption.
Qed.

Lemma consistent_alter_volume (w : World) (f : CachedVolume.t -> CachedVolume.t) (r : nat) :
  (forall e, CachedVolume.volumeId (f e) = CachedVolume.volumeId e) ->
  (forall e, volumeHeap w !! r = Some e -> volumeSizeOk e -> volumeSizeOk (f e)) ->
  consistent w -> consistent (set_volumeHeap (alter f r) w).
Proof.
  intros Hid Hsize [H1 H2 H3 H4 H5 H6 H7 H8]. split; simpl; try assumption.
  - eapply Forall_impl; [exact H6|]. intros kr. apply volumeKeyed_alter. exact Hid.
  - apply Forall_alter; assumption.
Qed.

Lemma imageKeyed_valid (h : list CachedImage.t) (m : JsMap) (r : nat) :
  Forall (imageKeyed h) m -> In r (Map_values m) -> (r < length h)%nat.
Proof.
  intros Hall Hin. unfold Map_values in Hin. apply in_map_iff in Hin.
  destruct Hin as ([k r'] & Heq & Hin). simpl in Heq. subst r'.
  rewrite Forall_forall in Hall. apply list_elem_of_In in Hin.
  specialize (Hall _ Hin). unfold imageKeyed in Hall. simpl in Hall.
  apply lookup_lt_is_Some. destruct (h !! r); [eexists; reflexivity|discriminate].
Qed.

Lemma volumeKeyed_valid (h : list CachedVolume.t) (m : JsMap) (r : nat) :
  Forall (volumeKeyed h) m -> In r (Map_values m) -> (r < length h)%nat.
Proof.
  intros Hall Hin. unfold Map_values in Hin. apply in_map_iff in Hin.
  destruct Hin as ([k r'] & Heq & Hin). simpl in Heq. subst r'.
  rewrite Forall_forall in Hall. apply list_elem_of_In in Hin.
  specialize (Hall _ Hin). unfold volumeKeyed in Hall. simpl in Hall.
  apply lookup_lt_is_Some. destruct (h !! r); [eexists; reflexivity|discriminate].
Qed.

(** A new entry object stored under its id. *)
Lemma consistent_put_image (w : World) (k : string) (e : CachedImage.t) :
  CachedImage.imageId e = k ->
  imageSizeOk e ->
  consistent w ->
  consistent
    (set_imageCache (fun m => Map_set m k (length (imageHeap w)))
       (set_imageHeap (fun h => h ++ [e]) w)).
Proof.
  intros Hid Hsize [H1 H2 H3 H4 H5 H6 H7 H8]. split; simpl; try assumption.
  - apply Map_set_NoDup_keys. exact H1.
  - apply Map_set_NoDup_values; [exact H3|].
    intros Hin. pose proof (imageKeyed_valid _ _ _ H5 Hin). lia.
  - apply Map_set_Forall.
    + rewrite Forall_forall in H5. apply Forall_forall. intros [k' r'] Hin.
      specialize (H5 _ Hin). unfold imageKeyed in *. simpl in *.
      rewrite lookup_app_l; [exact H5|].
      apply lookup_lt_is_Some. destruct (imageHeap w !! r'); [eexists; reflexivity|discriminate].
    + unfold imageKeyed. simpl. rewrite list_lookup_middle by reflexivity.
      simpl. rewrite Hid. reflexivity.
  - apply Forall_app. split; [exact H7|]. constructor; [exact Hsize|constructor].
Qed.

Lemma consistent_put_volume (w : World) (k : string) (e : CachedVolume.t) :
  CachedVolume.volumeId e = k ->
  volumeSizeOk e ->
  consistent w ->
  consistent
    (set_volumeCache (fun m => Map_set m k (length (volumeHeap w)))
       (set_volumeHeap (fun h => h ++ [e]) w)).
Proof.
  intros Hid Hsize [H1 H2 H3 H4 H5 H6 H7 H8]. split; simpl; try assumption.
  - apply Map_set_NoDup_keys. exact H2.
  - apply Map_set_NoDup_values; [exact H4|].
    intros Hin. pose proof (volumeKeyed_valid _ _ _ H6 Hin). lia.
  - apply Map_set_Forall.
    + rewrite Forall_forall in H6. apply Forall_forall. intros [k' r'] Hin.
      specialize (H6 _ Hin). unfold volumeKeyed in *. simpl in *.
      rewrite lookup_app_l; [exact H6|].
      apply lookup_lt_is_Some. destruct (volumeHeap w !! r'); [eexists; reflexivity|discriminate].
    + unfold volumeKeyed. simpl. rewrite list_lookup_middle by reflexivity.
      simpl. rewrite Hid. reflexivity.
  - apply Forall_app. split; [exact H8|]. constructor; [exact Hsize|constructor].
Qed.

(** The assignments of the methods, one by one. *)
Ltac consistent_leaf :=
  idtac;
  match goal with
  | |- keeps consistent (modify (set_trace _)) =>
      apply keeps_modify; intros ? ?; eapply consistent_frame; [..|eassumption]; reflexivity
  | |- keeps consistent (modify (set_cacheSize _)) =>
      apply keeps_modify; intros ? ?; eapply consistent_frame; [..|eassumption]; reflexivity
  | |- keeps consistent (modify (set_maxCacheSize _)) =>
      apply keeps_modify; intros ? ?; eapply consistent_frame; [..|eassumption]; reflexivity
  | |- keeps consistent (modify (set_imageCache (fun m => Map_delete m _))) =>
      apply keeps_modify; intros ? ?; apply consistent_delete_image; assumption
  | |- keeps consistent (modify (set_volumeCache (fun m => Map_delete m _))) =>
      apply keeps_modify; intros ? ?; apply consistent_delete_volume; assumption
  | |- keeps consistent (modify (set_imageHeap (alter (CachedImage.set_timeStamp _) _))) =>
      apply keeps_modify; intros ? ?; apply consistent_alter_image;
      [reflexivity|intros ? _ Hsize; exact Hsize|assumption]
  | |- keeps consistent (modify (set_volumeHeap (alter (CachedVolume.set_timeStamp _) _))) =>
      apply keeps_modify; intros ? ?; apply consistent_alter_volume;
      [reflexivity|intros ? _ Hsize; exact Hsize|assumption]
  end.

(** ** Every method keeps the state consistent *)

Lemma _decacheImage_consistent (imageId : string) : keeps consistent (_decacheImage imageId).
Proof. unfold _decacheImage. keeps_all consistent_leaf. Qed.

Lemma _decacheVolume_consistent (volumeId : string) : keeps consistent (_decacheVolume volumeId).
Proof. unfold _decacheVolume. keeps_all consistent_leaf. Qed.

Lemma purgeCache_consistent : keeps consistent purgeCache.
Proof.
  unfold purgeCache.
  keeps_all ltac:(first [consistent_leaf
                        | apply _decacheImage_consistent
                        | apply _decacheVolume_consistent]).
Qed.

Lemma removeImageLoadObject_consistent (imageId : option string) :
  keeps consistent (removeImageLoadObject imageId).
Proof.
  unfold removeImageLoadObject.
  keeps_all ltac:(first [consistent_leaf | apply _decacheImage_consistent]).
Qed.

Lemma removeVolumeLoadObject_consistent (volumeId : option string) :
  keeps consistent (removeVolumeLoadObject volumeId).
Proof.
  unfold removeVolumeLoadObject.
  keeps_all ltac:(first [consistent_leaf | apply _decacheVolume_consistent]).
Qed.

Lemma _purgeCacheIfNecessary_consistent : keeps consistent _purgeCacheIfNecessary.
Proof. unfold _purgeCacheIfNecessary. keeps_all consistent_leaf. Qed.

Lemma putImageLoadObject_consistent (now : Z) (imageId : option string)
    (imageLoadObject : ImageLoadObject) :
  keeps consistent (putImageLoadObject now imageId imageLoadObject).
Proof.
  intros w Hw. unfold putImageLoadObject.
  destruct imageId as [imageId|]; [|exact Hw].
  destruct (promise imageLoadObject); [|exact Hw].
  unfold bind, gets, Map_hasOwnProperty, newImage, modify.
  destruct (cancelFn imageLoadObject); try exact Hw;
    apply consistent_put_image; try reflexivity; try exact Hw; intros _; reflexivity.
Qed.

Lemma putVolumeLoadObject_consistent (now : Z) (volumeId : option string)
    (volumeLoadObject : VolumeLoadObject) :
  keeps consistent (putVolumeLoadObject now volumeId volumeLoadObject).
Proof.
  intros w Hw. unfold putVolumeLoadObject.
  destruct volumeId as [volumeId|]; [|exact Hw].
  destruct (promise volumeLoadObject); [|exact Hw].
  unfold bind, gets, Map_hasOwnProperty, newVolume, modify.
  destruct (cancelFn volumeLoadObject); try exact Hw;
    apply consistent_put_volume; try reflexivity; try exact Hw; intros _; reflexivity.
Qed.

Lemma imagePromiseFulfilledWith_consistent (sweep : M unit) (imageId : string)
    (cachedImage : nat) (image : Image.t) :
  keeps consistent sweep ->
  keeps consistent (imagePromiseFulfilledWith sweep imageId cachedImage image).
Proof.
  intros Hsweep w Hw. unfold imagePromiseFulfilledWith, bind, gets. simpl.
  destruct (Map_get (_imageCache w) imageId).
  2:{ eapply consistent_frame; [..|exact Hw]; reflexivity. }
  unfold assignImage, _incrementCacheSize, triggerEvent, emit, modify.
  assert (H2 : consistent
                 (set_imageHeap (alter (CachedImage.set_image (Some image)) cachedImage)
                    (set_imageHeap (alter (CachedImage.set_loaded true) cachedImage) w))).
  { apply consistent_alter_image; [reflexivity|intros e _ H; exact H|].
    apply consistent_alter_image; [reflexivity|intros e _ _ H; discriminate H|exact Hw]. }
  destruct (Image.sizeInBytes image) as [| |size|str]; try exact H2.
  apply Hsweep.
  apply consistent_alter_image; [reflexivity|intros e _ H; exact H|].
  apply consistent_set_trace, consistent_set_cacheSize.
  apply consistent_alter_image; [reflexivity| |exact H2].
  intros e He _ Hunloaded. exfalso.
  simpl in He. rewrite !list_lookup_alter_eq in He.
  destruct (imageHeap w !! cachedImage); [|discriminate He].
  injection He as <-. discriminate Hunloaded.
Qed.

Lemma volumePromiseFulfilledWith_consistent (sweep : M unit) (volumeId : string)
    (cachedVolume : nat) (volume : Volume.t) :
  keeps consistent sweep ->
  keeps consistent (volumePromiseFulfilledWith sweep volumeId cachedVolume volume).
Proof.
  intros Hsweep w Hw. unfold volumePromiseFulfilledWith, bind, gets. simpl.
  destruct (Map_get (_volumeCache w) volumeId).
  2:{ eapply consistent_frame; [..|exact Hw]; reflexivity. }
  unfold assignVolume, _incrementCacheSize, triggerEvent, emit, modify.
  assert (H2 : consistent
                 (set_volumeHeap (alter (CachedVolume.set_volume (Some volume)) cachedVolume)
                    (set_volumeHeap (alter (CachedVolume.set_loaded true) cachedVolume) w))).
  { apply consistent_alter_volume; [reflexivity|intros e _ H; exact H|].
    apply consistent_alter_volume; [reflexivity|intros e _ _ H; discriminate H|exact Hw]. }
  destruct (Volume.sizeInBytes volume) as [| |size|str]; try exact H2.
  apply Hsweep.
  apply consistent_set_trace, consistent_set_cacheSize.
  apply consistent_alter_volume; [reflexivity| |exact H2].
  intros e He _ Hunloaded. exfalso.
  simpl in He. rewrite !list_lookup_alter_eq in He.
  destruct (volumeHeap w !! cachedVolume); [|discriminate He].
  injection He as <-. discriminate Hunloaded.
Qed.

(** A call of any kind leaves a consistent world consistent. *)
Lemma perform_consistent (code : string) (op : Op) (w : World) :
  consistent w -> consistent (perform code op w).
Proof.
  destruct op; intros Hw; cbv beta iota delta [perform].
  - revert w Hw. change (keeps consistent (setMaxCacheSize newMaxCacheSize)).
    unfold setMaxCacheSize. keeps_all consistent_leaf.
  - revert w Hw. change (keeps consistent (checkCacheSizeCanSupportVolume code byteLength)).
    unfold checkCacheSizeCanSupportVolume. keeps_all consistent_leaf.
  - exact Hw.
  - exact Hw.
  - revert w Hw. change (keeps consistent (getImageVolume volumeId)).
    unfold getImageVolume. keeps_all consistent_leaf.
  - revert w Hw. change (keeps consistent (decacheUntilBytesAvailable numBytes)).
    unfold decacheUntilBytesAvailable. keeps_all consistent_leaf.
  - apply purgeCache_consistent. exact Hw.
  - apply putImageLoadObject_consistent. exact Hw.
  - revert w Hw. change (keeps consistent (getImageLoadObject now imageId)).
    unfold getImageLoadObject. keeps_all consistent_leaf.
  - apply putVolumeLoadObject_consistent. exact Hw.
  - revert w Hw. change (keeps consistent (getVolumeLoadObject now volumeId)).
    unfold getVolumeLoadObject. keeps_all consistent_leaf.
  - revert w Hw. change (keeps consistent (getVolume now volumeId)).
    unfold getVolume. keeps_all consistent_leaf.
  - apply removeImageLoadObject_consistent. exact Hw.
  - apply removeVolumeLoadObject_consistent. exact Hw.
  - apply imagePromiseFulfilledWith_consistent; [|exact Hw].
    apply _purgeCacheIfNecessary_consistent.
  - revert w Hw. change (keeps consistent (imagePromiseRejected imageId error)).
    unfold imagePromiseRejected. keeps_all consistent_leaf.
  - apply volumePromiseFulfilledWith_consistent; [|exact Hw].
    apply _purgeCacheIfNecessary_consistent.
  - revert w Hw. change (keeps consistent (volumePromiseRejected volumeId error)).
    unfold volumePromiseRejected. keeps_all consistent_leaf.
Qed.

Lemma new_Cache_consistent : consistent new_Cache.
Proof. split; simpl; constructor. Qed.

Lemma run_consistent (code : string) (ops : list Op) (w : World) :
  consistent w -> consistent (run code ops w).
Proof.
  revert w. induction ops as [|op ops IH]; intros w Hw; simpl; [exact Hw|].
  apply IH. apply perform_consistent. exact Hw.
Qed.

Lemma consistent_wellFormed (w : World) : consistent w -> wellFormed w.
Proof.
  intros [H1 H2 H3 H4 H5 H6 H7 H8]. split; try assumption.
  - apply Forall_forall. intros r Hr. apply lookup_lt_is_Some.
    apply (imageKeyed_valid _ _ _ H5). apply list_elem_of_In. exact Hr.
  - apply Forall_forall. intros r Hr. apply lookup_lt_is_Some.
    apply (volumeKeyed_valid _ _ _ H6). apply list_elem_of_In. exact Hr.
Qed.

(** ** The fields a call leaves alone *)

Create HintDb cache_methods.
#[local] Hint Unfold
  setMaxCacheSize checkCacheSizeCanSupportVolume getImageVolume
  decacheUntilBytesAvailable purgeCache putImageLoadObject getImageLoadObject
  putVolumeLoadObject getVolumeLoadObject getVolume removeImageLoadObject
  removeVolumeLoadObject imagePromiseFulfilled imagePromiseFulfilledWith
  imagePromiseRejected volumePromiseFulfilled volumePromiseFulfilledWith
  volumePromiseRejected _decacheImage _decacheVolume _purgeCacheIfNecessary
  : cache_methods.

Lemma keeps_eq {A B} (proj : World -> B) (c : M A) :
  (forall v, keeps (fun w => proj w = v) c) ->
  forall w, proj (snd (c w)) = proj w.
Proof. intros H w. apply (H (proj w) w). reflexivity. Qed.

(** An assignment to another field, or the creation of an entry object. *)
Ltac frame_leaf :=
  idtac;
  match goal with
  | |- keeps _ (modify _) => apply keeps_modify; intros ? Hframe; exact Hframe
  | |- keeps _ (newImage _) => intros ? Hframe; exact Hframe
  | |- keeps _ (newVolume _) => intros ? Hframe; exact Hframe
  end.

Ltac frame_method :=
  apply keeps_eq; intros ?;
  repeat first [keeps_step frame_leaf | progress autounfold with cache_methods].

Ltac frame_all :=
  intros code op w; destruct op; intros Hop; try discriminate Hop;
  cbv beta iota delta [perform]; try reflexivity;
  revert w; frame_method.

(** X16. No call other than [setMaxCacheSize] changes the ceiling, however
    the call completes. *)
Theorem perform_maxCacheSize :
  forall (code : string) (op : Op) (w : World),
    writesMaxCacheSize op = false ->
    _maxCacheSize (perform code op w) = _maxCacheSize w.
Proof. frame_all. Qed.

Lemma perform_maxCacheSize_witness :
  writesMaxCacheSize OpPurgeCache = false /\
  _maxCacheSize (perform "CACHE_SIZE_EXCEEDED" OpPurgeCache new_Cache) = 1073741824.
Proof.
  split; [reflexivity|].
  exact (perform_maxCacheSize "CACHE_SIZE_EXCEEDED" OpPurgeCache new_Cache eq_refl).
Defined.

(** X17. The running total is changed by the two completion callbacks and by
    the two explicit removals only.  No other call changes it, however it
    completes: not [purgeCache], not a put, not a lookup, not a rejection,
    not [decacheUntilBytesAvailable]. *)
Theorem perform_cacheSize :
  forall (code : string) (op : Op) (w : World),
    writesCacheSize op = false ->
    _cacheSize (perform code op w) = _cacheSize w.
Proof. frame_all. Qed.

Lemma perform_cacheSize_witness :
  let w := after [putImageLoadObject 1 (Some "A") (loader 1);
                  imagePromiseFulfilled "A" 0%nat (imageOf (JsNumber 60))] in
  writesCacheSize OpPurgeCache = false /\
  _cacheSize (perform "CACHE_SIZE_EXCEEDED" OpPurgeCache w) = 60.
Proof.
  intros w. split; [reflexivity|].
  exact (perform_cacheSize "CACHE_SIZE_EXCEEDED" OpPurgeCache w eq_refl).
Defined.

(** X18. The image collection is changed by [putImageLoadObject],
    [removeImageLoadObject], the rejection callback of an image load and
    [purgeCache] only.  In particular no completion callback, of an image or
    of a volume, adds or removes an image, and neither does
    [decacheUntilBytesAvailable]. *)
Theorem perform_imageCache :
  forall (code : string) (op : Op) (w : World),
    writesImageCache op = false ->
    _imageCache (perform code op w) = _imageCache w.
Proof. frame_all. Qed.

Lemma perform_imageCache_witness :
  let w := after [putImageLoadObject 1 (Some "A") (loader 1)] in
  let op := OpImagePromiseFulfilled "A" 0%nat (imageOf (JsNumber 2000000000)) in
  writesImageCache op = false /\
  _imageCache (perform "CACHE_SIZE_EXCEEDED" op w) = [("A", 0%nat)].
Proof.
  intros w op. split; [reflexivity|].
  exact (perform_imageCache "CACHE_SIZE_EXCEEDED" op w eq_refl).
Defined.

(** X19. The volume collection is changed by [putVolumeLoadObject],
    [removeVolumeLoadObject] and [purgeCache] only.  No completion callback
    and no sweep removes a volume, and the rejection callback of a volume load
    leaves the failed volume cached. *)
Theorem perform_volumeCache :
  forall (code : string) (op : Op) (w : World),
    writesVolumeCache op = false ->
    _volumeCache (perform code op w) = _volumeCache w.
Proof. frame_all. Qed.

Lemma perform_volumeCache_witness :
  let w := after [putVolumeLoadObject 1 (Some "V") (loader 1)] in
  let op := OpVolumePromiseRejected "V" "network" in
  writesVolumeCache op = false /\
  _volumeCache (perform "CACHE_SIZE_EXCEEDED" op w) = [("V", 0%nat)].
Proof.
  intros w op. split; [reflexivity|].
  exact (perform_volumeCache "CACHE_SIZE_EXCEEDED" op w eq_refl).
Defined.

(** ** Insertion and lookup *)

Lemma putImageLoadObject_ok (w : World) (now : Z) (imageId : string)
    (imageLoadObject : ImageLoadObject) :
  acceptable imageLoadObject ->
  putImageLoadObject now (Some imageId) imageLoadObject w =
    (Normal tt,
     set_imageCache (fun m => Map_set m imageId (length (imageHeap w)))
       (set_imageHeap (fun h => h ++ [pendingImage now imageId imageLoadObject]) w)).
Proof.
  intros [Hp Hc]. unfold putImageLoadObject.
  destruct (promise imageLoadObject); [|contradiction].
  destruct (cancelFn imageLoadObject); try contradiction; reflexivity.
Qed.

Lemma putVolumeLoadObject_ok (w : World) (now : Z) (volumeId : string)
    (volumeLoadObject : VolumeLoadObject) :
  acceptable volumeLoadObject ->
  putVolumeLoadObject now (Some volumeId) volumeLoadObject w =
    (Normal tt,
     set_volumeCache (fun m => Map_set m volumeId (length (volumeHeap w)))
       (set_volumeHeap (fun h => h ++ [pendingVolume now volumeId volumeLoadObject]) w)).
Proof.
  intros [Hp Hc]. unfold putVolumeLoadObject.
  destruct (promise volumeLoadObject); [|contradiction].
  destruct (cancelFn volumeLoadObject); try contradiction; reflexivity.
Qed.

Lemma getImageLoadObject_present (w : World) (now : Z) (imageId : string) (r : nat)
    (e : CachedImage.t) :
  Map_get (_imageCache w) imageId = Some r ->
  imageHeap w !! r = Some e ->
  getImageLoadObject now (Some imageId) w =
    (Normal (Some (CachedImage.imageLoadObject e)),
     set_imageHeap (alter (CachedImage.set_timeStamp now) r) w).
Proof.
  intros Hget He. unfold getImageLoadObject, bind, gets. simpl.
  rewrite Hget. unfold assignImage, modify, ret. rewrite He. reflexivity.
Qed.

Lemma getVolumeLoadObject_present (w : World) (now : Z) (volumeId : string) (r : nat)
    (e : CachedVolume.t) :
  Map_get (_volumeCache w) volumeId = Some r ->
  volumeHeap w !! r = Some e ->
  getVolumeLoadObject now (Some volumeId) w =
    (Normal (Some (CachedVolume.volumeLoadObject e)),
     set_volumeHeap (alter (CachedVolume.set_timeStamp now) r) w).
Proof.
  intros Hget He. unfold getVolumeLoadObject, bind, gets. simpl.
  rewrite Hget. unfold assignVolume, modify, ret. rewrite He. reflexivity.
Qed.

Lemma getVolume_present (w : World) (now : Z) (volumeId : string) (r : nat)
    (e : CachedVolume.t) :
  Map_get (_volumeCache w) volumeId = Some r ->
  volumeHeap w !! r = Some e ->
  getVolume now (Some volumeId) w =
    (Normal (CachedVolume.volume e),
     set_volumeHeap (alter (CachedVolume.set_timeStamp now) r) w).
Proof.
  intros Hget He. unfold getVolume, bind, gets. simpl.
  rewrite Hget. unfold assignVolume, modify, ret. rewrite He. reflexivity.
Qed.

(** X1. After a put of an image with an acceptable load object, in any world,
    [getImageLoadObject] of the same id returns that load object; the lookup
    changes nothing but the time stamp of the new entry, which becomes the
    time of the lookup. *)
Theorem put_then_getImageLoadObject :
  forall (w : World) (now now' : Z) (imageId : string) (imageLoadObject : ImageLoadObject),
    acceptable imageLoadObject ->
    let w1 := snd (putImageLoadObject now (Some imageId) imageLoadObject w) in
    let r := length (imageHeap w) in
    getImageLoadObject now' (Some imageId) w1 =
      (Normal (Some imageLoadObject),
       set_imageHeap (alter (CachedImage.set_timeStamp now') r) w1) /\
    imageHeap w1 !! r = Some (pendingImage now imageId imageLoadObject) /\
    imageHeap (snd (getImageLoadObject now' (Some imageId) w1)) !! r
      = Some (pendingImage now' imageId imageLoadObject).
Proof.
  intros w now now' imageId lo Hok w1 r.
  assert (Hget : Map_get (_imageCache w1) imageId = Some r).
  { subst w1. rewrite (putImageLoadObject_ok _ _ _ _ Hok). simpl. apply Map_get_set_eq. }
  assert (He : imageHeap w1 !! r = Some (pendingImage now imageId lo)).
  { subst w1. rewrite (putImageLoadObject_ok _ _ _ _ Hok). simpl.
    apply list_lookup_middle. reflexivity. }
  rewrite (getImageLoadObject_present _ _ _ _ _ Hget He). simpl.
  split; [reflexivity|]. split; [exact He|].
  rewrite list_lookup_alter_eq, He. reflexivity.
Qed.

Lemma put_then_getImageLoadObject_witness :
  acceptable (loader 1) /\
  fst (getImageLoadObject 9 (Some "A")
         (snd (putImageLoadObject 1 (Some "A") (loader 1) new_Cache)))
    = Normal (Some (loader 1)).
Proof.
  assert (Hok : acceptable (loader 1)) by (split; discriminate).
  split; [exact Hok|].
  pose proof (put_then_getImageLoadObject new_Cache 1 9 "A" (loader 1) Hok) as H.
  cbv zeta in H. destruct H as [H _]. rewrite H. reflexivity.
Defined.

(** X2. After a put of a volume with an acceptable load object, in any world:
    [getVolumeLoadObject] returns that load object; [getVolume] and
    [getImageVolume] both return [undefined], since nothing is loaded yet, and
    [getImageVolume] does not throw; the first two set the time stamp of the
    entry, [getImageVolume] changes nothing. *)
Theorem put_then_volume_lookups :
  forall (w : World) (now now' : Z) (volumeId : string) (volumeLoadObject : VolumeLoadObject),
    acceptable volumeLoadObject ->
    let w1 := snd (putVolumeLoadObject now (Some volumeId) volumeLoadObject w) in
    let r := length (volumeHeap w) in
    getVolumeLoadObject now' (Some volumeId) w1 =
      (Normal (Some volumeLoadObject),
       set_volumeHeap (alter (CachedVolume.set_timeStamp now') r) w1) /\
    getVolume now' (Some volumeId) w1 =
      (Normal None, set_volumeHeap (alter (CachedVolume.set_timeStamp now') r) w1) /\
    getImageVolume (Some volumeId) w1 = (Normal None, w1).
Proof.
  intros w now now' volumeId lo Hok w1 r.
  assert (Hget : Map_get (_volumeCache w1) volumeId = Some r).
  { subst w1. rewrite (putVolumeLoadObject_ok _ _ _ _ Hok). simpl. apply Map_get_set_eq. }
  assert (He : volumeHeap w1 !! r = Some (pendingVolume now volumeId lo)).
  { subst w1. rewrite (putVolumeLoadObject_ok _ _ _ _ Hok). simpl.
    apply list_lookup_middle. reflexivity. }
  rewrite (getVolumeLoadObject_present _ _ _ _ _ Hget He).
  rewrite (getVolume_present _ _ _ _ _ Hget He).
  repeat split.
  unfold getImageVolume, bind, gets. simpl. unfold volumeAt. rewrite Hget. simpl.
  rewrite He. reflexivity.
Qed.

Lemma put_then_volume_lookups_witness :
  acceptable (loader 2) /\
  fst (getVolumeLoadObject 9 (Some "V")
         (snd (putVolumeLoadObject 1 (Some "V") (loader 2) new_Cache)))
    = Normal (Some (loader 2)) /\
  fst (getImageVolume (Some "V")
         (snd (putVolumeLoadObject 1 (Some "V") (loader 2) new_Cache)))
    = Normal None.
Proof.
  assert (Hok : acceptable (loader 2)) by (split; discriminate).
  split; [exact Hok|].
  pose proof (put_then_volume_lookups new_Cache 1 9 "V" (loader 2) Hok) as H.
  cbv zeta in H. destruct H as (H1 & _ & H3). rewrite H1, H3. split; reflexivity.
Defined.

(** ** Loading and removing *)

Lemma volumePromiseFulfilled_number (w : World) (volumeId : string)
    (cachedVolume : nat) (volume : Volume.t) (sizeInBytes : Z) :
  is_Some (Map_get (_volumeCache w) volumeId) ->
  Volume.sizeInBytes volume = JsNumber sizeInBytes ->
  volumePromiseFulfilled volumeId cachedVolume volume w =
    (if _cacheSize w + sizeInBytes <=? _maxCacheSize w
     then Normal tt
     else Throw (TypeError "cachedImages.sort is not a function"),
     {| _imageCache := _imageCache w;
        _volumeCache := _volumeCache w;
        _cacheSize := _cacheSize w + sizeInBytes;
        _maxCacheSize := _maxCacheSize w;
        imageHeap := imageHeap w;
        volumeHeap :=
          alter (CachedVolume.set_sizeInBytes sizeInBytes) cachedVolume
            (alter (CachedVolume.set_volume (Some volume)) cachedVolume
               (alter (CachedVolume.set_loaded true) cachedVolume (volumeHeap w)));
        trace := trace w ++ [TriggerEvent IMAGE_CACHE_VOLUME_ADDED (DetailVolume cachedVolume)] |}).
Proof.
  intros [r0 Hget] Hsize.
  unfold volumePromiseFulfilled, volumePromiseFulfilledWith, bind, gets. simpl.
  rewrite Hget, Hsize.
  unfold assignVolume, _incrementCacheSize, triggerEvent, emit, modify. simpl.
  rewrite _purgeCacheIfNecessary_spec. reflexivity.
Qed.

Lemma removeVolumeLoadObject_present (w : World) (volumeId : string) (r : nat)
    (e : CachedVolume.t) :
  Map_get (_volumeCache w) volumeId = Some r ->
  volumeHeap w !! r = Some e ->
  removeVolumeLoadObject (Some volumeId) w =
    (Normal tt,
     {| _imageCache := _imageCache w;
        _volumeCache := Map_delete (_volumeCache w) volumeId;
        _cacheSize := _cacheSize w + - CachedVolume.sizeInBytes e;
        _maxCacheSize := _maxCacheSize w;
        imageHeap := imageHeap w;
        volumeHeap := volumeHeap w;
        trace := (trace w ++ [TriggerEvent IMAGE_CACHE_VOLUME_REMOVED (DetailVolume r)])
                 ++ hookCalls (CachedVolume.volumeLoadObject e) |}).
Proof.
  intros Hget He. unfold removeVolumeLoadObject, bind, gets. simpl.
  rewrite Hget, He.
  unfold _incrementCacheSize, triggerEvent, emit, modify.
  rewrite (_decacheVolume_present _ _ e).
  - reflexivity.
  - unfold volumeAt. simpl. rewrite Hget. exact He.
Qed.



Lemma Map_delete_set_absent (m : JsMap) (k : string) (r : nat) :
  Map_get m k = None -> Map_delete (Map_set m k r) k = m.
Proof.
  induction m as [|[k' r'] m IH]; simpl; intros H.
  - rewrite String.eqb_refl. reflexivity.
  - destruct (String.eqb k' k) eqn:E; [discriminate|].
    simpl. rewrite E. f_equal. exact (IH H).
Qed.



(** X5. In any world: a volume is put with an acceptable load object and its
    load is fulfilled with a volume that reports a numeric size.  Then
    [getVolume] and [getImageVolume] of the id both return that volume, also
    when the sweep after the completion threw. *)
Theorem loaded_volume_is_returned :
  forall (w : World) (now now' : Z) (volumeId : string)
         (volumeLoadObject : VolumeLoadObject) (volume : Volume.t) (n : Z),
    acceptable volumeLoadObject ->
    Volume.sizeInBytes volume = JsNumber n ->
    let w1 := snd (putVolumeLoadObject now (Some volumeId) volumeLoadObject w) in
    let w2 := snd (volumePromiseFulfilled volumeId (length (volumeHeap w)) volume w1) in
    fst (getVolume now' (Some volumeId) w2) = Normal (Some volume) /\
    getImageVolume (Some volumeId) w2 = (Normal (Some volume), w2).
Proof.
  intros w now now' volumeId lo volume n Hok Hsize w1 w2.
  set (r := length (volumeHeap w)) in *.
  assert (Hget : Map_get (_volumeCache w1) volumeId = Some r).
  { subst w1. rewrite (putVolumeLoadObject_ok _ _ _ _ Hok). simpl. apply Map_get_set_eq. }
  assert (He : volumeHeap w1 !! r = Some (pendingVolume now volumeId lo)).
  { subst w1. rewrite (putVolumeLoadObject_ok _ _ _ _ Hok). simpl.
    apply list_lookup_middle. reflexivity. }
  pose proof (volumePromiseFulfilled_number w1 volumeId r volume n
                (ex_intro _ r Hget) Hsize) as H2.
  assert (Hget2 : Map_get (_volumeCache w2) volumeId = Some r).
  { subst w2. rewrite H2. exact Hget. }
  assert (He2 : exists e, volumeHeap w2 !! r = Some e /\ CachedVolume.volume e = Some volume).
  { subst w2. rewrite H2. simpl. rewrite !list_lookup_alter_eq, He. simpl.
    eexists. split; reflexivity. }
  destruct He2 as (e & He2 & Hv).
  rewrite (getVolume_present _ _ _ _ _ Hget2 He2). split; [simpl; rewrite Hv; reflexivity|].
  unfold getImageVolume, bind, gets. simpl. unfold volumeAt. rewrite Hget2. simpl.
  rewrite He2, Hv. reflexivity.
Qed.

Lemma loaded_volume_is_returned_witness :
  acceptable (loader 1) /\
  Volume.sizeInBytes (volumeOf (JsNumber 40)) = JsNumber 40 /\
  fst (getVolume 9 (Some "V")
         (snd (volumePromiseFulfilled "V" 0%nat (volumeOf (JsNumber 40))
                 (snd (putVolumeLoadObject 1 (Some "V") (loader 1) new_Cache)))))
    = Normal (Some (volumeOf (JsNumber 40))).
Proof.
  assert (Hok : acceptable (loader 1)) by (split; discriminate).
  split; [exact Hok|]. split; [reflexivity|].
  exact (proj1 (loaded_volume_is_returned new_Cache 1 9 "V" (loader 1)
                  (volumeOf (JsNumber 40)) 40 Hok eq_refl)).
Defined.

(** ** What a put accepts *)


(** ** Removal *)


(** X8. In any world, after a removal that completed normally the id is gone:
    the lookup of the id returns [undefined] and changes nothing, a second
    removal throws and changes nothing, and a completion that arrives for the
    id only warns.  The same for a volume. *)
Theorem removal_is_final :
  (forall (w : World) (now : Z) (imageId : string) (r : nat) (image : Image.t),
      fst (removeImageLoadObject (Some imageId) w) = Normal tt ->
      let w' := snd (removeImageLoadObject (Some imageId) w) in
      getImageLoadObject now (Some imageId) w' = (Normal None, w') /\
      removeImageLoadObject (Some imageId) w' =
        (Throw (Error "removeImageLoadObject: imageId was not present in imageCache"), w') /\
      imagePromiseFulfilled imageId r image w' =
        (Normal tt, set_trace (fun t => t ++ [ConsoleWarn purgedWarning]) w')) /\
  (forall (w : World) (now : Z) (volumeId : string) (r : nat) (volume : Volume.t),
      fst (removeVolumeLoadObject (Some volumeId) w) = Normal tt ->
      let w' := snd (removeVolumeLoadObject (Some volumeId) w) in
      getVolumeLoadObject now (Some volumeId) w' = (Normal None, w') /\
      getVolume now (Some volumeId) w' = (Normal None, w') /\
      removeVolumeLoadObject (Some volumeId) w' =
        (Throw (Error "removeVolumeLoadObject: volumeId was not present in volumeCache"), w') /\
      volumePromiseFulfilled volumeId r volume w' =
        (Normal tt, set_trace (fun t => t ++ [ConsoleWarn purgedWarning]) w')).
Proof.
  split.
  - intros w now imageId r image Hok w'.
    assert (Hgone : Map_get (_imageCache w') imageId = None).
    { subst w'. pose proof (removeImageLoadObject_outcome w imageId) as H.
      destruct (removeImageLoadObject (Some imageId) w) as [[u|e|] w1];
        simpl in Hok; try discriminate Hok.
      destruct H as [H _]. simpl. rewrite H. apply Map_get_delete_eq. }
    split; [|split].
    + unfold getImageLoadObject, bind, gets. simpl. rewrite Hgone. reflexivity.
    + apply removeImageLoadObject_absent. exact Hgone.
    + apply imagePromiseFulfilled_absent_id. exact Hgone.
  - intros w now volumeId r volume Hok w'.
    assert (Hgone : Map_get (_volumeCache w') volumeId = None).
    { subst w'. revert Hok. unfold removeVolumeLoadObject, bind, gets. simpl.
      destruct (Map_get (_volumeCache w) volumeId) as [r0|] eqn:Hget; [|discriminate].
      unfold _incrementCacheSize, triggerEvent, emit, modify, _decacheVolume, bind, gets.
      simpl. unfold volumeAt. simpl. rewrite Hget. simpl.
      destruct (volumeHeap w !! r0) as [e|]; [|discriminate].
      unfold when, emit, modify, ret.
      destruct (cancel _), (decache _); simpl; intros _; apply Map_get_delete_eq. }
    split; [|split; [|split]].
    + unfold getVolumeLoadObject, bind, gets. simpl. rewrite Hgone. reflexivity.
    + unfold getVolume, bind, gets. simpl. rewrite Hgone. reflexivity.
    + unfold removeVolumeLoadObject, bind, gets. simpl. rewrite Hgone. reflexivity.
    + apply volumePromiseFulfilled_absent_id. exact Hgone.
Qed.

Lemma removal_is_final_witness :
  let wi := snd (putImageLoadObject 1 (Some "A") (loader 1) new_Cache) in
  let wv := snd (putVolumeLoadObject 1 (Some "V") (loader 1) new_Cache) in
  fst (removeImageLoadObject (Some "A") wi) = Normal tt /\
  fst (removeVolumeLoadObject (Some "V") wv) = Normal tt /\
  fst (getImageLoadObject 9 (Some "A") (snd (removeImageLoadObject (Some "A") wi)))
    = Normal None /\
  fst (getVolume 9 (Some "V") (snd (removeVolumeLoadObject (Some "V") wv)))
    = Normal None.
Proof.
  intros wi wv.
  assert (Hi : fst (removeImageLoadObject (Some "A") wi) = Normal tt) by reflexivity.
  assert (Hv : fst (removeVolumeLoadObject (Some "V") wv) = Normal tt) by reflexivity.
  split; [exact Hi|]. split; [exact Hv|]. split.
  - pose proof (proj1 removal_is_final wi 9 "A" 0%nat (imageOf JsUndefined) Hi) as H.
    cbv zeta in H. destruct H as [H _]. rewrite H. reflexivity.
  - pose proof (proj2 removal_is_final wv 9 "V" 0%nat (volumeOf JsUndefined) Hv) as H.
    cbv zeta in H. destruct H as (_ & H & _). rewrite H. reflexivity.
Defined.

(** ** Rejected loads *)

(** X9. When the promise of an image load is rejected, the callback warns,
    deletes the id and stops: the total is untouched, no event is fired, no
    hook is called, the other ids are still cached, and a completion that
    arrives for the id afterwards only warns.  When the promise of a volume
    load is rejected, the callback warns and then throws a TypeError before it
    deletes anything: the volume collection is what it was. *)
Theorem rejected_loads :
  forall (w : World) (id : string) (error : string),
    (imagePromiseRejected id error w =
       (Normal tt,
        set_imageCache (fun m => Map_delete m id)
          (set_trace (fun t => t ++ [ConsoleWarn error]) w)) /\
     Map_get (_imageCache (snd (imagePromiseRejected id error w))) id = None /\
     (forall id', id <> id' ->
        Map_get (_imageCache (snd (imagePromiseRejected id error w))) id'
        = Map_get (_imageCache w) id') /\
     (forall (r : nat) (image : Image.t),
        fst (imagePromiseFulfilled id r image (snd (imagePromiseRejected id error w)))
        = Normal tt /\
        _cacheSize (snd (imagePromiseFulfilled id r image
                           (snd (imagePromiseRejected id error w)))) = _cacheSize w)) /\
    volumePromiseRejected id error w =
      (Throw (TypeError "Cannot read properties of undefined (reading 'delete')"),
       set_trace (fun t => t ++ [ConsoleWarn error]) w).
Proof.
  intros w id error.
  assert (H : imagePromiseRejected id error w =
              (Normal tt,
               set_imageCache (fun m => Map_delete m id)
                 (set_trace (fun t => t ++ [ConsoleWarn error]) w))) by reflexivity.
  split; [|reflexivity]. split; [exact H|]. rewrite H. simpl.
  split; [apply Map_get_delete_eq|]. split; [intros id' Hne; apply Map_get_delete_ne; exact Hne|].
  intros r image. unfold imagePromiseFulfilled.
  rewrite imagePromiseFulfilled_absent_id; [split; reflexivity|].
  simpl. apply Map_get_delete_eq.
Qed.

(** ** The ceiling and the capacity checks *)







(** ** The byte accounting along a run *)

Lemma accounted_frame (w w' : World) :
  _cacheSize w' = _cacheSize w ->
  _imageCache w' = _imageCache w ->
  _volumeCache w' = _volumeCache w ->
  imageHeap w' = imageHeap w ->
  volumeHeap w' = volumeHeap w ->
  accounted w -> accounted w'.
Proof.
  unfold accounted, loadedBytes. intros -> -> -> -> ->. tauto.
Qed.

Lemma volumeBytes_same (h h' : list CachedVolume.t) (x : nat) :
  h' !! x = h !! x -> volumeBytes h' x = volumeBytes h x.
Proof. intros H. unfold volumeBytes. rewrite H. reflexivity. Qed.

Lemma sumZ_volumeBytes_elsewhere (h h' : list CachedVolume.t) (r : nat) (l : list nat) :
  (forall x, x <> r -> h' !! x = h !! x) ->
  ~ In r l ->
  sumZ (map (volumeBytes h') l) = sumZ (map (volumeBytes h) l).
Proof.
  intros Hsame. induction l as [|x l IH]; simpl; intros H; [reflexivity|].
  rewrite IH by tauto.
  rewrite (volumeBytes_same h h' x); [reflexivity|].
  apply Hsame. intros ->. apply H. left. reflexivity.
Qed.

Lemma sumZ_volumeBytes_at (h h' : list CachedVolume.t) (r : nat) (l : list nat) :
  (forall x, x <> r -> h' !! x = h !! x) ->
  NoDup l -> In r l ->
  sumZ (map (volumeBytes h') l) =
    sumZ (map (volumeBytes h) l) + (volumeBytes h' r - volumeBytes h r).
Proof.
  intros Hsame. induction l as [|x l IH]; simpl; intros Hnd Hin; [contradiction|].
  inversion Hnd as [|? ? Hnotin Hnd']; subst.
  rewrite list_elem_of_In in Hnotin.
  destruct (Nat.eq_dec x r) as [->|Hne].
  - rewrite (sumZ_volumeBytes_elsewhere h h' r l Hsame Hnotin). lia.
  - rewrite IH; [|exact Hnd'|destruct Hin; [contradiction|assumption]].
    rewrite (volumeBytes_same h h' x (Hsame x Hne)). lia.
Qed.

(** The time stamp of an entry does not count. *)
Lemma imageBytes_timeStamp (h : list CachedImage.t) (now : Z) (r x : nat) :
  imageBytes (alter (CachedImage.set_timeStamp now) r h) x = imageBytes h x.
Proof.
  unfold imageBytes. rewrite list_lookup_alter.
  destruct (decide (r = x)) as [->|_]; [|reflexivity].
  destruct (h !! x); reflexivity.
Qed.

Lemma volumeBytes_timeStamp (h : list CachedVolume.t) (now : Z) (r x : nat) :
  volumeBytes (alter (CachedVolume.set_timeStamp now) r h) x = volumeBytes h x.
Proof.
  unfold volumeBytes. rewrite list_lookup_alter.
  destruct (decide (r = x)) as [->|_]; [|reflexivity].
  destruct (h !! x); reflexivity.
Qed.

Lemma accounted_image_timeStamp (w : World) (now : Z) (r : nat) :
  accounted w -> accounted (set_imageHeap (alter (CachedImage.set_timeStamp now) r) w).
Proof.
  unfold accounted, loadedBytes. simpl. intros ->. f_equal.
  f_equal. apply map_ext. intros x. symmetry. apply imageBytes_timeStamp.
Qed.

Lemma accounted_volume_timeStamp (w : World) (now : Z) (r : nat) :
  accounted w -> accounted (set_volumeHeap (alter (CachedVolume.set_timeStamp now) r) w).
Proof.
  unfold accounted, loadedBytes. simpl. intros ->. f_equal.
  f_equal. apply map_ext. intros x. symmetry. apply volumeBytes_timeStamp.
Qed.

Lemma removeVolumeLoadObject_accounted (w : World) (volumeId : string) (r : nat)
    (e : CachedVolume.t) :
  accounted w ->
  NoDup (Map_keys (_volumeCache w)) ->
  Map_get (_volumeCache w) volumeId = Some r ->
  volumeHeap w !! r = Some e ->
  volumeSizeOk e ->
  accounted (snd (removeVolumeLoadObject (Some volumeId) w)).
Proof.
  intros Hacc Hnd Hget He Hzero.
  rewrite (removeVolumeLoadObject_present _ _ _ _ Hget He).
  unfold accounted, loadedBytes in *. simpl.
  rewrite (sumZ_Map_delete _ (_volumeCache w) _ _ Hnd Hget) in Hacc.
  assert (Hb : volumeBytes (volumeHeap w) r = CachedVolume.sizeInBytes e).
  { unfold volumeBytes. rewrite He. unfold entryBytes.
    destruct (CachedVolume.loaded e) eqn:L; [reflexivity|]. symmetry. apply Hzero. exact L. }
  lia.
Qed.

Lemma putVolumeLoadObject_accounted (w : World) (now : Z) (volumeId : string)
    (volumeLoadObject : VolumeLoadObject) :
  accounted w ->
  Forall (fun r => is_Some (volumeHeap w !! r)) (Map_values (_volumeCache w)) ->
  Map_get (_volumeCache w) volumeId = None ->
  accounted (snd (putVolumeLoadObject now (Some volumeId) volumeLoadObject w)).
Proof.
  intros Hacc Hrefs Habsent. unfold putVolumeLoadObject.
  destruct (promise volumeLoadObject); [|exact Hacc].
  unfold bind, gets, Map_hasOwnProperty, newVolume, modify.
  assert (Hold : forall e0,
             map (volumeBytes (volumeHeap w ++ [e0])) (Map_values (_volumeCache w))
             = map (volumeBytes (volumeHeap w)) (Map_values (_volumeCache w))).
  { intros e0. apply map_ext_in. intros r Hin.
    rewrite Forall_forall in Hrefs. apply list_elem_of_In in Hin.
    specialize (Hrefs r Hin). apply lookup_lt_is_Some in Hrefs.
    unfold volumeBytes. rewrite lookup_app_l by exact Hrefs. reflexivity. }
  destruct (cancelFn volumeLoadObject); try exact Hacc;
    unfold accounted, loadedBytes in *; simpl;
    rewrite (Map_values_set_absent _ _ _ Habsent), map_app, sumZ_app, Hold; simpl;
    unfold volumeBytes at 2; rewrite list_lookup_middle by reflexivity; simpl; lia.
Qed.

(** The completion of the load whose entry is cached under its id and is not
    loaded yet, whatever size the artifact reports. *)
Lemma imagePromiseFulfilled_accounted_own (w : World) (imageId : string) (r : nat)
    (e : CachedImage.t) (image : Image.t) :
  accounted w ->
  NoDup (Map_values (_imageCache w)) ->
  Map_get (_imageCache w) imageId = Some r ->
  imageHeap w !! r = Some e ->
  CachedImage.loaded e = false ->
  CachedImage.sizeInBytes e = 0 ->
  accounted (snd (imagePromiseFulfilled imageId r image w)).
Proof.
  intros Hacc Hnd Hget He Hunloaded Hzero.
  destruct (Image.sizeInBytes image) as [| |n|s] eqn:Hsize;
    try (apply (imagePromiseFulfilled_accounted w imageId r e image n); assumption);
    unfold imagePromiseFulfilled, imagePromiseFulfilledWith, bind, gets; simpl;
    rewrite Hget, Hsize; unfold assignImage, modify; simpl;
    unfold accounted, loadedBytes in *; simpl;
    match goal with |- context [map (imageBytes ?h')] => set (heap' := h') end;
    (assert (Hsame : forall x, x <> r -> heap' !! x = imageHeap w !! x)
       by (intros x Hx; subst heap'; rewrite !list_lookup_alter_ne by congruence; reflexivity));
    rewrite (sumZ_imageBytes_at _ _ r _ Hsame Hnd (Map_get_Some_values _ _ _ Hget));
    (assert (Hnew : imageBytes heap' r = 0)
       by (unfold imageBytes; subst heap'; rewrite !list_lookup_alter_eq, He; simpl;
           exact Hzero));
    (assert (Hold : imageBytes (imageHeap w) r = 0)
       by (unfold imageBytes; rewrite He, Hunloaded; reflexivity));
    lia.
Qed.

Lemma volumePromiseFulfilled_accounted_own (w : World) (volumeId : string) (r : nat)
    (e : CachedVolume.t) (volume : Volume.t) :
  accounted w ->
  NoDup (Map_values (_volumeCache w)) ->
  Map_get (_volumeCache w) volumeId = Some r ->
  volumeHeap w !! r = Some e ->
  CachedVolume.loaded e = false ->
  CachedVolume.sizeInBytes e = 0 ->
  accounted (snd (volumePromiseFulfilled volumeId r volume w)).
Proof.
  intros Hacc Hnd Hget He Hunloaded Hzero.
  assert (Hold : volumeBytes (volumeHeap w) r = 0)
    by (unfold volumeBytes; rewrite He, Hunloaded; reflexivity).
  destruct (Volume.sizeInBytes volume) as [| |n|s] eqn:Hsize.
  3:{ rewrite (volumePromiseFulfilled_number _ _ _ _ _ (ex_intro _ r Hget) Hsize).
      unfold accounted, loadedBytes in *. simpl.
      match goal with |- context [map (volumeBytes ?h')] => set (heap' := h') end.
      assert (Hsame : forall x, x <> r -> heap' !! x = volumeHeap w !! x)
        by (intros x Hx; subst heap'; rewrite !list_lookup_alter_ne by congruence; reflexivity).
      rewrite (sumZ_volumeBytes_at _ _ r _ Hsame Hnd (Map_get_Some_values _ _ _ Hget)).
      assert (Hnew : volumeBytes heap' r = n)
        by (unfold volumeBytes; subst heap'; rewrite !list_lookup_alter_eq, He; reflexivity).
      lia. }
  all: unfold volumePromiseFulfilled, volumePromiseFulfilledWith, bind, gets; simpl;
    rewrite Hget, Hsize; unfold assignVolume, modify; simpl;
    unfold accounted, loadedBytes in *; simpl;
    match goal with |- context [map (volumeBytes ?h')] => set (heap' := h') end;
    (assert (Hsame : forall x, x <> r -> heap' !! x = volumeHeap w !! x)
       by (intros x Hx; subst heap'; rewrite !list_lookup_alter_ne by congruence; reflexivity));
    rewrite (sumZ_volumeBytes_at _ _ r _ Hsame Hnd (Map_get_Some_values _ _ _ Hget));
    (assert (Hnew : volumeBytes heap' r = 0)
       by (unfold volumeBytes; subst heap'; rewrite !list_lookup_alter_eq, He; simpl;
           exact Hzero));
    lia.
Qed.

Lemma Map_get_lookup (heap_ok : string * nat -> Prop) (m : JsMap) (k : string) (r : nat) :
  Forall heap_ok m -> Map_get m k = Some r -> heap_ok (k, r).
Proof.
  intros Hall Hget. induction Hall as [|[k' r'] m Hx Hm IH]; simpl in Hget; [discriminate|].
  destruct (String.eqb k' k) eqn:E.
  - apply String.eqb_eq in E. injection Hget as ->. subst k'. exact Hx.
  - exact (IH Hget).
Qed.

Lemma Map_delete_uncached (m : JsMap) (k : string) :
  Map_get m k = None -> Map_delete m k = m.
Proof. intros H. apply Map_delete_absent. apply Map_get_None_keys. exact H. Qed.

(** One call of the kind [accountingStep] describes, in a consistent world. *)
Lemma perform_accounted (code : string) (op : Op) (w : World) :
  consistent w -> accounted w -> accountingStep w op ->
  accounted (perform code op w).
Proof.
  intros Hc Hacc Hstep.
  pose proof (consistent_wellFormed w Hc) as Hwf.
  destruct Hc as [Hik Hvk Hiv Hvv Hii Hvi His Hvs].
  destruct op; cbv beta iota delta [perform]; simpl in Hstep.
  - rewrite setMaxCacheSize_spec. exact Hacc.
  - unfold checkCacheSizeCanSupportVolume, bind, getCacheSize, getMaxCacheSize, gets. simpl.
    destruct (_cacheSize w + byteLength >? _maxCacheSize w); exact Hacc.
  - exact Hacc.
  - exact Hacc.
  - unfold getImageVolume, bind, gets. simpl.
    destruct (volumeId ≫= volumeAt w); exact Hacc.
  - rewrite decacheUntilBytesAvailable_spec. exact Hacc.
  - destruct (purgeCache_spec w Hwf) as [t Ht]. rewrite Ht.
    unfold accounted, loadedBytes. simpl. lia.
  - destruct imageId as [imageId|]; [|exact Hacc].
    apply putImageLoadObject_accounted; [exact Hacc|apply Hwf|exact Hstep].
  - destruct imageId as [imageId|]; [|exact Hacc].
    unfold getImageLoadObject, bind, gets. simpl.
    destruct (Map_get (_imageCache w) imageId); [|exact Hacc].
    apply accounted_image_timeStamp. exact Hacc.
  - destruct volumeId as [volumeId|]; [|exact Hacc].
    apply putVolumeLoadObject_accounted; [exact Hacc|apply Hwf|exact Hstep].
  - destruct volumeId as [volumeId|]; [|exact Hacc].
    unfold getVolumeLoadObject, bind, gets. simpl.
    destruct (Map_get (_volumeCache w) volumeId); [|exact Hacc].
    apply accounted_volume_timeStamp. exact Hacc.
  - destruct volumeId as [volumeId|]; [|exact Hacc].
    unfold getVolume, bind, gets. simpl.
    destruct (Map_get (_volumeCache w) volumeId); [|exact Hacc].
    apply accounted_volume_timeStamp. exact Hacc.
  - destruct imageId as [imageId|]; [|exact Hacc].
    destruct (Map_get (_imageCache w) imageId) as [r|] eqn:Hget.
    + pose proof (Map_get_lookup _ _ _ _ Hii Hget) as Hk. unfold imageKeyed in Hk. simpl in Hk.
      destruct (imageHeap w !! r) as [e|] eqn:He; [|discriminate Hk].
      apply (removeImageLoadObject_accounted w imageId r e); try assumption.
      rewrite Forall_lookup in His. exact (His _ _ He).
    + rewrite removeImageLoadObject_absent by exact Hget. exact Hacc.
  - destruct volumeId as [volumeId|]; [|exact Hacc].
    destruct (Map_get (_volumeCache w) volumeId) as [r|] eqn:Hget.
    + pose proof (Map_get_lookup _ _ _ _ Hvi Hget) as Hk. unfold volumeKeyed in Hk. simpl in Hk.
      destruct (volumeHeap w !! r) as [e|] eqn:He; [|discriminate Hk].
      apply (removeVolumeLoadObject_accounted w volumeId r e); try assumption.
      rewrite Forall_lookup in Hvs. exact (Hvs _ _ He).
    + unfold removeVolumeLoadObject, bind, gets. simpl. rewrite Hget. exact Hacc.
  - destruct Hstep as [Habsent|[Hget Hl]].
    + unfold imagePromiseFulfilled.
      rewrite imagePromiseFulfilled_absent_id by exact Habsent. exact Hacc.
    + destruct (imageHeap w !! cachedImage) as [e|] eqn:He; [|discriminate Hl].
      injection Hl as Hl.
      apply (imagePromiseFulfilled_accounted_own w imageId cachedImage e); try assumption.
      rewrite Forall_lookup in His. exact (His _ _ He Hl).
  - unfold imagePromiseRejected, bind, console_warn, emit, modify. simpl.
    destruct (Map_get (_imageCache w) imageId) as [r|] eqn:Hget.
    + unfold accounted, loadedBytes in *. simpl.
      rewrite (sumZ_Map_delete _ _ _ _ Hik Hget) in Hacc.
      rewrite (Hstep r eq_refl) in Hacc. lia.
    + unfold accounted, loadedBytes in *. simpl.
      rewrite (Map_delete_uncached _ _ Hget). exact Hacc.
  - destruct Hstep as [Habsent|[Hget Hl]].
    + unfold volumePromiseFulfilled.
      rewrite volumePromiseFulfilled_absent_id by exact Habsent. exact Hacc.
    + destruct (volumeHeap w !! cachedVolume) as [e|] eqn:He; [|discriminate Hl].
      injection Hl as Hl.
      apply (volumePromiseFulfilled_accounted_own w volumeId cachedVolume e); try assumption.
      rewrite Forall_lookup in Hvs. exact (Hvs _ _ He Hl).
  - exact Hacc.
Qed.

(** X13. Every world that a sequence of calls reaches from a new cache is
    consistent: no id stands twice in a collection, no entry object is cached
    under two ids, every cached entry object carries the id it is cached
    under, and every entry object that is not loaded has size 0.  The calls
    are the public methods and the promise callbacks, with any arguments. *)
Theorem every_run_is_consistent :
  forall (code : string) (ops : list Op), consistent (run code ops new_Cache).
Proof. intros code ops. apply run_consistent, new_Cache_consistent. Qed.




(** ** What a purge tells the collaborators *)

Lemma purgeCache_image_loop_trace (m : JsMap) :
  forall w : World,
    _imageCache w = m ->
    NoDup (Map_keys m) ->
    Forall (fun r => is_Some (imageHeap w !! r)) (Map_values m) ->
    forEach (Map_keys m) _decacheImage w =
      (Normal tt,
       set_imageCache (fun _ => [])
         (set_trace
            (fun t => t ++ flat_map (imageHookCalls (imageHeap w)) (Map_values m)) w)).
Proof.
  induction m as [|[k r] m IH]; intros w Hm Hkeys Hrefs.
  - destruct w as [ic vc cs mx ih vh t]. simpl in *. subst ic.
    unfold set_imageCache, set_trace, Map_values. simpl.
    rewrite app_nil_r. reflexivity.
  - simpl in Hkeys, Hrefs. inversion Hkeys as [|? ? Hnotin Hkeys']; subst.
    inversion Hrefs as [|? ? [e He] Hrefs']; subst.
    assert (Hat : imageAt w k = Some e).
    { unfold imageAt. rewrite Hm. simpl. rewrite String.eqb_refl. exact He. }
    simpl. unfold bind at 1. rewrite (_decacheImage_present _ _ _ Hat).
    match goal with |- context [forEach _ _ ?w1] => set (w1' := w1) end.
    rewrite (IH w1').
    + subst w1'. unfold imageHookCalls at 2. rewrite He.
      destruct w as [ic vc cs mx ih vh t0]. simpl.
      unfold set_imageCache, set_trace. simpl. rewrite <- app_assoc. reflexivity.
    + subst w1'. simpl. rewrite Hm. apply Map_delete_head.
      rewrite <- list_elem_of_In. exact Hnotin.
    + exact Hkeys'.
    + subst w1'. simpl. exact Hrefs'.
Qed.

Lemma purgeCache_volume_loop_trace (m : JsMap) :
  forall w : World,
    _volumeCache w = m ->
    NoDup (Map_keys m) ->
    Forall (fun r => is_Some (volumeHeap w !! r)) (Map_values m) ->
    forEach (Map_keys m) _decacheVolume w =
      (Normal tt,
       set_volumeCache (fun _ => [])
         (set_trace
            (fun t => t ++ flat_map (volumeHookCalls (volumeHeap w)) (Map_values m)) w)).
Proof.
  induction m as [|[k r] m IH]; intros w Hm Hkeys Hrefs.
  - destruct w as [ic vc cs mx ih vh t]. simpl in *. subst vc.
    unfold set_volumeCache, set_trace, Map_values. simpl.
    rewrite app_nil_r. reflexivity.
  - simpl in Hkeys, Hrefs. inversion Hkeys as [|? ? Hnotin Hkeys']; subst.
    inversion Hrefs as [|? ? [e He] Hrefs']; subst.
    assert (Hat : volumeAt w k = Some e).
    { unfold volumeAt. rewrite Hm. simpl. rewrite String.eqb_refl. exact He. }
    simpl. unfold bind at 1. rewrite (_decacheVolume_present _ _ _ Hat).
    match goal with |- context [forEach _ _ ?w1] => set (w1' := w1) end.
    rewrite (IH w1').
    + subst w1'. unfold volumeHookCalls at 2. rewrite He.
      destruct w as [ic vc cs mx ih vh t0]. simpl.
      unfold set_volumeCache, set_trace. simpl. rewrite <- app_assoc. reflexivity.
    + subst w1'. simpl. rewrite Hm. apply Map_delete_head.
      rewrite <- list_elem_of_In. exact Hnotin.
    + exact Hkeys'.
    + subst w1'. simpl. exact Hrefs'.
Qed.

